(** * fabric: the dependency graph engine (graph.go)

    A shallow embedding of [Graph] and of the operations of graph.go
    that build, check and tear down a dependency graph, followed by the
    properties of these operations.

    Conventions of the embedding.
    - A Go [int] is a [Z]; identifiers are only ever compared.
    - A [DGNode] interface value is a record of what the graph code can
      observe of it without going through mutable state: the boxed value
      itself ([addr]; Go's [==] on two interface values is equality of the
      records), [ID()], [GetType()], whether the dynamic type is
      comparable, and what the type assertion [n.(UI)] yields.
    - The signaling maps and the dependency list a node reports are
      mutable and are reached through the node; they live in a store
      indexed by the node ([nodes] below).  [ListSignalers] hands out the
      map of the store, so a write through it and a later [UpdateSignaling]
      of the same node act on the same object.
    - A [*DGNode] is modelled by the node it points to.
    - [Top] is a Go map; it is kept as an association list in the order in
      which [range] yields its entries.  Its keys are pairwise distinct
      ([TopOK]).
    - Indexing [Top] by a node whose dynamic type is not comparable
      panics in Go.  [Dependencies], [cycleDfs] and [RemoveVUI] are
      embedded for nodes of comparable types; [CycleDetect_correct] and
      [Boundary_spec] take the comparability as a hypothesis.
    - A channel is the number it was allocated under; [0] is the nil
      channel and [make(chan ProcedureSignals)] draws from a counter. *)

From stdpp Require Import base decidable option list gmap.
From Stdlib Require Import ZArith Lia.

Open Scope Z_scope.

(** ** Data model *)

Inductive NodeType : Type :=
  | UINode
  | TemporalNode
  | VirtualTemporalNode
  | VUINode
  | VDGNode
  | Unknown.

#[global] Instance NodeType_eq_dec : EqDecision NodeType.
Proof. solve_decision. Defined.

(** cds.go: [Node] is observed through [ID()] only. *)
Record Node : Type := mkNode { NodeID : Z }.

#[global] Instance Node_eq_dec : EqDecision Node.
Proof. solve_decision. Defined.

(** Modelled from the spec: the declaration of [Edge] and [EdgeList] is
    missing from the sources; sections.go uses an edge through [Source()]
    and [Destination()], and the host structure hands out "edge lists". *)
Record Edge : Type := mkEdge { Source : Node; Destination : Node }.

#[global] Instance Edge_eq_dec : EqDecision Edge.
Proof. solve_decision. Defined.

Definition NodeList : Type := list Node.
Definition EdgeList : Type := list Edge.

(** sections.go: [Section]; a [CDS] satisfies it. *)
Record Section : Type := mkSection {
  ListNodes : NodeList;
  ListEdges : EdgeList
}.

#[global] Instance Section_eq_dec : EqDecision Section.
Proof. solve_decision. Defined.

Definition CDS : Type := Section.

(** Modelled from the spec: the declaration of the [UI] interface that
    graph.go uses is missing from the sources; graph.go calls
    [IsVirtual()] and [GetSection()] on it.  [GetSection] returns a
    pointer, [None] is the nil pointer. *)
Record UI : Type := mkUI {
  IsVirtual : bool;
  GetSection : option Section
}.

#[global] Instance UI_eq_dec : EqDecision UI.
Proof. solve_decision. Defined.

Record DGNode : Type := mkDGNode {
  addr : Z;
  ID : Z;
  GetType : NodeType;
  Comparable : bool;
  asUI : option UI
}.

#[global] Instance DGNode_eq_dec : EqDecision DGNode.
Proof. solve_decision. Defined.

Definition chan : Type := nat.

(** [SignalingMap] and [SignalsMap]: both are maps from node ids to
    channels. *)
Abbreviation SignalingMap := (gmap Z chan).
Abbreviation SignalsMap := (gmap Z chan).

(** The mutable part of a node. *)
Record NodeState : Type := mkNodeState {
  Signalers : SignalingMap;
  Signals : SignalsMap;
  Dependencies_ : list DGNode
}.

Inductive error : Type :=
  | ErrNotComparable      (* "Node type is not comparable and cannot be used in the graph topology" *)
  | ErrNodeExists         (* "Node already exists in Dependency Graph." *)
  | ErrNotUI              (* "Not a UI node" *)
  | ErrNotVirtual         (* "Not a virtual node" / "Not a virtual node." *)
  | ErrHasDependencies.   (* "VUI node still has dependencies" *)

#[global] Instance error_eq_dec : EqDecision error.
Proof. solve_decision. Defined.

(** [Graph] together with the heap its nodes live in. *)
Record Graph : Type := mkGraph {
  DS : option CDS;
  Top : list (DGNode * list DGNode);
  nodes : DGNode -> NodeState;
  next_chan : chan
}.

Definition emptyState : NodeState :=
  {| Signalers := ∅; Signals := ∅; Dependencies_ := [] |}.

(** [NewGraph]: no host structure, no node; channel [0] is nil. *)
Definition NewGraph : Graph :=
  {| DS := None; Top := []; nodes := fun _ => emptyState; next_chan := 1%nat |}.

Definition keys (g : Graph) : list DGNode := fst <$> Top g.

Definition TopOK (g : Graph) : Prop := NoDup (keys g).

(** ** Node methods *)

Definition ListSignalers (g : Graph) (n : DGNode) : SignalingMap :=
  Signalers (nodes g n).

Definition ListSignals (g : Graph) (n : DGNode) : SignalsMap :=
  Signals (nodes g n).

Definition ListDependencies (g : Graph) (n : DGNode) : list DGNode :=
  Dependencies_ (nodes g n).

Definition UpdateSignaling (n : DGNode) (sm : SignalingMap) (s : SignalsMap)
    (g : Graph) : Graph :=
  {| DS := DS g;
     Top := Top g;
     nodes := fun m =>
       if decide (m = n)
       then {| Signalers := sm; Signals := s;
               Dependencies_ := Dependencies_ (nodes g n) |}
       else nodes g m;
     next_chan := next_chan g |}.

(** [make(chan ProcedureSignals)] *)
Definition make_chan (g : Graph) : chan * Graph :=
  (next_chan g,
   {| DS := DS g; Top := Top g; nodes := nodes g;
      next_chan := S (next_chan g) |}).

(** ** Helpers of util.go *)

(** Modelled from the spec: [contains] is missing from the sources; it
    tells whether a node is in a slice of nodes.  Nodes are compared as
    the keys of [Top] are. *)
Definition contains (s : list DGNode) (i : DGNode) : bool :=
  bool_decide (i ∈ s).

(** Modelled from the spec: [containsDGNode] is missing from the sources;
    an edge is "membership of dependency in dependent's dependency
    set". *)
Definition containsDGNode (s : list DGNode) (n : DGNode) : bool :=
  bool_decide (n ∈ s).

(** Modelled from the spec: [containsNode] and [containsEdge] are missing
    from the sources; a section "lists" a host node or edge. *)
Definition containsNode (s : NodeList) (n : Node) : bool :=
  bool_decide (n ∈ s).

Definition containsEdge (s : EdgeList) (e : Edge) : bool :=
  bool_decide (e ∈ s).

(** [g.Top[n]]: the entry of a key. *)
Fixpoint lookupTop (top : list (DGNode * list DGNode)) (n : DGNode)
    : option (list DGNode) :=
  match top with
  | [] => None
  | (k, l) :: rest => if decide (k = n) then Some l else lookupTop rest n
  end.

(** [delete(g.Top, n)] *)
Definition deleteTop (top : list (DGNode * list DGNode)) (n : DGNode)
    : list (DGNode * list DGNode) :=
  filter (fun e => fst e ≠ n) top.

(** ** Operations *)

(** [Graph.Dependencies] *)
Definition Dependencies (g : Graph) (np : DGNode) : list DGNode :=
  let n := np in
  match lookupTop (Top g) n with
  | None => []
  | Some v => fold_left (fun list p => list ++ [p]) v []
  end.

(** [Graph.Dependents] *)
Definition Dependents (g : Graph) (np : DGNode) : list DGNode :=
  let n := np in
  fold_left
    (fun list '(i, v) =>
       if bool_decide (ID i ≠ ID n) then
         if containsDGNode v np then list ++ [i] else list
       else list)
    (Top g) [].

(** [Graph.AddRealNode].  The new entry is put last in the order of
    [range], which Go leaves open. *)
Definition AddRealNode (node : DGNode) (g : Graph) : option error * Graph :=
  if negb (Comparable node) then (Some ErrNotComparable, g)
  else
    match lookupTop (Top g) node with
    | None =>
        (None,
         {| DS := DS g; Top := Top g ++ [(node, [])];
            nodes := nodes g; next_chan := next_chan g |})
    | Some _ => (Some ErrNodeExists, g)
    end.

(** The body of the loop of [Graph.AddRealEdge] for the entry [(i, k)].
    [k] is the loop's copy of the slice header: [k = append(k, dest)]
    assigns to that copy and [g.Top[i]] is not assigned anywhere. *)
Definition AddRealEdge_body (source : Z) (dest : DGNode) (g : Graph)
    (e : DGNode * list DGNode) : Graph :=
  let d := dest in
  let '(i, k) := e in
  if bool_decide (ID i = source) then
    if negb (containsDGNode k dest) then
      let k := k ++ [dest] in
      (* update SignalingMap for destination *)
      let depSig := ListSignalers g d in
      let depS := ListSignals g d in
      let '(c, g) := make_chan g in
      let depSig := <[ID i := c]> depSig in
      let g := UpdateSignaling d depSig depS g in
      (* update SignalsMap for source; the range over d.ListSignalers()
         that stops at the key i.ID() is a lookup of that key *)
      let signals := ListSignals g i in
      let signalers := ListSignalers g i in
      let signals :=
        match ListSignalers g d !! ID i with
        | Some v => <[ID d := v]> signals
        | None => signals
        end in
      UpdateSignaling i signalers signals g
    else g
  else g.

(** [Graph.AddRealEdge]: no result. *)
Definition AddRealEdge (source : Z) (dest : DGNode) (g : Graph) : Graph :=
  fold_left (AddRealEdge_body source dest) (Top g) g.

(** The two inner loops of [Graph.SignalsAndSignalers] and its body for
    the entry [(n, l)].  Reading a key that a map does not hold yields
    the nil channel. *)
Definition SignalsAndSignalers_body (g : Graph) (e : DGNode * list DGNode)
    : Graph :=
  let '(n, l) := e in
  (* create its SignalersMap *)
  let deps := Dependents g n in
  let '(sm, g) :=
    fold_left
      (fun '(sm, g) d => let '(c, g) := make_chan g in (<[ID d := c]> sm, g))
      deps (∅ : SignalingMap, g) in
  (* create its SignalsMap *)
  let s :=
    fold_left
      (fun (s : SignalsMap) np =>
         let dep := np in
         let channels := ListSignalers g dep in
         let ch := default 0%nat (channels !! ID dep) in
         <[ID dep := ch]> s)
      l (∅ : SignalsMap) in
  UpdateSignaling n sm s g.

(** [Graph.SignalsAndSignalers] *)
Definition SignalsAndSignalers (g : Graph) : Graph :=
  fold_left SignalsAndSignalers_body (Top g) g.

(** ** Cycle detection *)

(** [Graph.cycleDfs].  The recursion is bounded by [fuel]; [None] is fuel
    exhaustion.  The result carries, besides the two results of the Go
    function, the list [visits] of the nodes [cycleDfs] has been entered
    on so far (a ghost of the model, for counting visits).

    [if result, done := g.cycleDfs(v, seen, done); result] declares a
    [done] of its own, scoped to the [if]: when the call returns [false]
    the slice it returns is dropped and the loop goes on with the [done]
    it had. *)
Fixpoint cycleDfs (fuel : nat) (g : Graph) (start : DGNode)
    (seen done visits : list DGNode)
    : option (bool * list DGNode * list DGNode) :=
  match fuel with
  | O => None
  | S fuel' =>
      let seen := seen ++ [start] in
      let adj := default [] (lookupTop (Top g) start) in
      (fix loop (adj : list DGNode) (visits : list DGNode) :=
         match adj with
         | [] =>
             (* seen = seen[:len(seen)-1]; done = append(done, start) *)
             Some (false, done ++ [start], visits)
         | v :: adj' =>
             if contains done v then loop adj' visits
             else if contains seen v then Some (true, done, visits)
             else
               match cycleDfs fuel' g v seen done visits with
               | None => None
               | Some (true, done', visits') => Some (true, done', visits')
               | Some (false, _, visits') => loop adj' visits'
               end
         end) adj (visits ++ [start])
  end.

(** The loop of [cycleDfs] over [adj], with the recursive call as a
    parameter: [cycleDfs (S fuel)] is this loop run on [cycleDfs fuel]
    (see [cycleDfs_unfold]); proofs go by induction on [adj]. *)
Definition cycleDfs_loop
    (rec : DGNode → list DGNode → option (bool * list DGNode * list DGNode))
    (start : DGNode) (seen done : list DGNode)
    : list DGNode → list DGNode → option (bool * list DGNode * list DGNode) :=
  fix loop (adj : list DGNode) (visits : list DGNode) :=
    match adj with
    | [] => Some (false, done ++ [start], visits)
    | v :: adj' =>
        if contains done v then loop adj' visits
        else if contains seen v then Some (true, done, visits)
        else
          match rec v visits with
          | None => None
          | Some (true, done', visits') => Some (true, done', visits')
          | Some (false, _, visits') => loop adj' visits'
          end
    end.

(** The loop of [Graph.CycleDetect] over the keys still to come. *)
Fixpoint CycleDetect_loop (fuel : nat) (g : Graph) (ks : list DGNode)
    (seen done visits : list DGNode) : option (bool * list DGNode) :=
  match ks with
  | [] => Some (false, visits)
  | i :: ks' =>
      if negb (contains done i) then
        match cycleDfs fuel g i seen done visits with
        | None => None
        | Some (result, d, visits') =>
            let done := d in
            if result then Some (true, visits')
            else CycleDetect_loop fuel g ks' seen done visits'
        end
      else CycleDetect_loop fuel g ks' seen done visits
  end.

(** A path of the traversal holds pairwise distinct nodes, all but the
    last of which are keys of [Top]: one more than the number of keys
    bounds the depth of the recursion. *)
Definition dfsFuel (g : Graph) : nat := S (length (Top g)).

(** [Graph.CycleDetect], with the visits of the scan. *)
Definition CycleDetect_visits (g : Graph) : option (bool * list DGNode) :=
  CycleDetect_loop (dfsFuel g) g (keys g) [] [] [].

(** [Graph.CycleDetect] *)
Definition CycleDetect (g : Graph) : option bool :=
  fst <$> CycleDetect_visits g.

(** ** Totality-uniqueness and coverage *)

Section TotalityUniqueness.
(** [reflect.DeepEqual] on two nodes; what it compares is a matter of
    the node types, which the graph does not know. *)
Variable DeepEqual : DGNode -> DGNode -> bool.

(** The inner loop of [Graph.TotalityUnique] from index [j] on; [true]
    when it reaches [return false]. *)
Fixpoint TotalityUnique_inner (done : list DGNode) (i : nat) (n : DGNode)
    (j : nat) (uiSlice : list DGNode) : bool :=
  match uiSlice with
  | [] => false
  | n2 :: rest =>
      if negb (contains done n2) && bool_decide (j ≠ i) && DeepEqual n n2
      then true
      else TotalityUnique_inner done i n (S j) rest
  end.

(** The outer loop from index [i] on. *)
Fixpoint TotalityUnique_outer (uiSlice done : list DGNode) (i : nat)
    (todo : list DGNode) : bool :=
  match todo with
  | [] => true
  | n :: rest =>
      if TotalityUnique_inner done i n 0 uiSlice then false
      else TotalityUnique_outer uiSlice (done ++ [n]) (S i) rest
  end.

(** grab all UI nodes *)
Definition uiNodes (g : Graph) : list DGNode :=
  filter (fun i => GetType i = UINode) (keys g).

(** [Graph.TotalityUnique] *)
Definition TotalityUnique (g : Graph) : bool :=
  let uiSlice := uiNodes g in
  TotalityUnique_outer uiSlice [] 0 uiSlice.
End TotalityUniqueness.

(** [uiSlice = append(uiSlice, v.(UI))] for the keys of type [UINode];
    the type assertion panics ([None]) on a node that is no [UI]. *)
Fixpoint uiSliceOf (ks : list DGNode) : option (list UI) :=
  match ks with
  | [] => Some []
  | v :: rest =>
      if decide (GetType v = UINode) then
        match asUI v with
        | None => None
        | Some u => cons u <$> uiSliceOf rest
        end
      else uiSliceOf rest
  end.

(** The loop over [uiSlice] for the host node [v]: [Some true] when it
    reaches [continue FIRST].  [sp := *s] panics on a nil section. *)
Fixpoint someUIListsNode (uiSlice : list UI) (v : Node) : option bool :=
  match uiSlice with
  | [] => Some false
  | u :: rest =>
      match GetSection u with
      | None => None
      | Some sp =>
          let uiCDSNodes := ListNodes sp in
          if containsNode uiCDSNodes v then Some true
          else someUIListsNode rest v
      end
  end.

Fixpoint someUIListsEdge (uiSlice : list UI) (v : Edge) : option bool :=
  match uiSlice with
  | [] => Some false
  | u :: rest =>
      match GetSection u with
      | None => None
      | Some sp =>
          let uiCDSEdges := ListEdges sp in
          if containsEdge uiCDSEdges v then Some true
          else someUIListsEdge rest v
      end
  end.

(** The loop labelled [FIRST]: [Some false] is [return false], [Some
    true] is falling out of the loop. *)
Fixpoint coveredNodes (uiSlice : list UI) (nodes : NodeList) : option bool :=
  match nodes with
  | [] => Some true
  | v :: rest =>
      match someUIListsNode uiSlice v with
      | None => None
      | Some true => coveredNodes uiSlice rest
      | Some false => Some false
      end
  end.

(** The loop labelled [SECOND]. *)
Fixpoint coveredEdges (uiSlice : list UI) (edges : EdgeList) : option bool :=
  match edges with
  | [] => Some true
  | v :: rest =>
      match someUIListsEdge uiSlice v with
      | None => None
      | Some true => coveredEdges uiSlice rest
      | Some false => Some false
      end
  end.

(** [Graph.Covered]; [None] is a panic (a [UINode] that is no [UI], a nil
    [g.DS], a nil section). *)
Definition Covered (g : Graph) : option bool :=
  match uiSliceOf (keys g) with
  | None => None
  | Some uiSlice =>
      match DS g with
      | None => None
      | Some ds =>
          let nodes := ListNodes ds in
          let edges := ListEdges ds in
          match coveredNodes uiSlice nodes with
          | Some true => coveredEdges uiSlice edges
          | r => r
          end
      end
  end.

(** ** Virtual nodes *)

(** The body of the loop of [Graph.RemoveVUI] for the entry [(n, l)]. *)
Definition RemoveVUI_body (np : DGNode) (g : Graph)
    (e : DGNode * list DGNode) : Graph :=
  let '(n, l) := e in
  if containsDGNode l np then
    let signals := ListSignals g n in
    let signals := delete (ID np) signals in
    UpdateSignaling n (ListSignalers g n) signals g
  else g.

(** [Graph.RemoveVUI] *)
Definition RemoveVUI (np : DGNode) (g : Graph) : option error * Graph :=
  let n := np in
  match asUI n with
  | None => (Some ErrNotUI, g)
  | Some node =>
      if negb (IsVirtual node) then (Some ErrNotVirtual, g)
      else if bool_decide (length (ListDependencies g n) ≠ 0%nat)
      then (Some ErrHasDependencies, g)
      else
        (* Remove VUI from Signals maps in dependent nodes *)
        let g := fold_left (RemoveVUI_body np) (Top g) g in
        (* remove node from graph *)
        (None,
         {| DS := DS g; Top := deleteTop (Top g) n;
            nodes := nodes g; next_chan := next_chan g |})
  end.

(** ** Boundaries, adjacency and node kinds *)

(** [Graph.IsLeafBoundary] *)
Definition IsLeafBoundary (g : Graph) (n : DGNode) : bool :=
  if bool_decide (length (Dependents g n) = 0%nat) then true else false.

(** [Graph.IsRootBoundary] *)
Definition IsRootBoundary (g : Graph) (n : DGNode) : bool :=
  if bool_decide (length (Dependencies g n) = 0%nat) then true else false.

(** [Graph.GetAdjacents].  [containsDGNode(l2, &n)] is given the address
    of the loop variable; as everywhere, the pointer stands for the node
    it points to. *)
Definition GetAdjacents (g : Graph) (node : DGNode) : list DGNode :=
  fold_left
    (fun list '(n, l) =>
       if bool_decide (ID n = ID node) then
         (* Add all dependents to list *)
         let list :=
           fold_left
             (fun list '(n2, l2) =>
                if containsDGNode l2 n then list ++ [n2] else list)
             (Top g) list in
         (* Add all dependencies to list *)
         fold_left (fun list np => list ++ [np]) l list
       else list)
    (Top g) [].

(** [Graph.AddVUI].  The argument is one Go value; [node] is what it
    shows as a [UI] and [self] is [node.(DGNode)].  Nothing checks that
    the value can be a key: [g.Top[node.(DGNode)] = ...] panics ([None])
    on a value whose type is not comparable. *)
Definition AddVUI (node : UI) (self : DGNode) (g : Graph)
    : option (option error * Graph) :=
  if negb (IsVirtual node) then Some (Some ErrNotVirtual, g)
  else
    let nodeSlice := fold_left (fun s n => s ++ [n]) (keys g) [] in
    if negb (contains nodeSlice self) then
      if Comparable self then
        Some (None,
              {| DS := DS g; Top := Top g ++ [(self, [])];
                 nodes := nodes g; next_chan := next_chan g |})
      else None
    else Some (Some ErrNodeExists, g).

Section NodeKinds.
(** Modelled from the spec: the declaration of the [Temporal] interface
    is missing from the sources; [Graph.Type] asserts it and calls
    [IsVirtual()] on it.  [asTemporal n] is [None] when [n.(Temporal)]
    fails and holds the result of [IsVirtual()] otherwise;
    [isVirtualNode n] tells whether [n.(Virtual)] succeeds. *)
Variable asTemporal : DGNode → option bool.
Variable isVirtualNode : DGNode → bool.

(** [Graph.Type] *)
Definition TypeOf (n : DGNode) : NodeType :=
  match asUI n with
  | Some j => if IsVirtual j then VUINode else UINode
  | None =>
      match asTemporal n with
      | Some k => if k then VirtualTemporalNode else TemporalNode
      | None => if isVirtualNode n then VDGNode else Unknown
      end
  end.
End NodeKinds.

(** ** Sections (sections.go) *)

(** [NewSubgraph]: the edges it collects.  The struct it returns holds
    [nodes] and these edges; it is used as a [Section]. *)
Definition NewSubgraph_edges (nodes : NodeList) (c : CDS) : EdgeList :=
  fold_left
    (fun edges n =>
       let cdsEdges := ListEdges c in
       fold_left
         (fun edges e =>
            let s := Source e in
            let d := Destination e in
            if bool_decide (NodeID d = NodeID n) && containsNode nodes s
            then edges ++ [e] else edges)
         cdsEdges edges)
    nodes [].

Definition NewSubgraph (nodes : NodeList) (c : CDS) : Section :=
  {| ListNodes := nodes; ListEdges := NewSubgraph_edges nodes c |}.

(** [NewBranch] and [NewPartition]: both hand back the nodes and edges
    of the whole structure. *)
Definition NewBranch (root : Node) (c : CDS) : Section :=
  let nodes := ListNodes c in
  let edges := ListEdges c in
  {| ListNodes := nodes; ListEdges := edges |}.

Definition NewPartition (start end_ : Node) (c : CDS) : Section :=
  let nodes := ListNodes c in
  let edges := ListEdges c in
  {| ListNodes := nodes; ListEdges := edges |}.

(** [NewSubset]: the edges it collects. *)
Definition NewSubset_edges (nodes : NodeList) (c : CDS) : EdgeList :=
  let cdsEdges := ListEdges c in
  fold_left
    (fun edges n =>
       fold_left
         (fun edges e =>
            if bool_decide (Source e = n) || bool_decide (Destination e = n)
            then if negb (containsEdge edges e) then edges ++ [e] else edges
            else edges)
         cdsEdges edges)
    nodes [].

Definition NewSubset (nodes : NodeList) (c : CDS) : Section :=
  {| ListNodes := nodes; ListEdges := NewSubset_edges nodes c |}.

(** [NewDisjoint] *)
Definition NewDisjoint (nodes : NodeList) (edges : EdgeList) : Section :=
  {| ListNodes := nodes; ListEdges := edges |}.

(** ** Graphs made through the operations *)

(** The graphs one gets from [NewGraph] by the operations of graph.go
    that change a graph. *)
Inductive built : Graph → Prop :=
  | built_NewGraph : built NewGraph
  | built_AddRealNode node g :
      built g → built (snd (AddRealNode node g))
  | built_AddRealEdge source dest g :
      built g → built (AddRealEdge source dest g)
  | built_AddVUI node self g r :
      built g → asUI self = Some node → AddVUI node self g = Some r →
      built (snd r)
  | built_RemoveVUI np g :
      built g → built (snd (RemoveVUI np g))
  | built_SignalsAndSignalers g :
      built g → built (SignalsAndSignalers g).

(** The channels of the maps of a graph are the nil channel or channels
    the counter has handed out. *)
Definition chansOK (g : Graph) : Prop :=
  ∀ n k c,
    ListSignalers g n !! k = Some c ∨ ListSignals g n !! k = Some c →
    (c < next_chan g)%nat.

(** What the operations keep: [Top] is a map, its lists are empty, the
    host structure is not set, the channel counter is past the nil
    channel and past every channel of a map. *)
Definition builtInv (g : Graph) : Prop :=
  TopOK g ∧ (∀ n l, (n, l) ∈ Top g → l = []) ∧ DS g = None ∧
  chansOK g ∧ (0 < next_chan g)%nat.

(** The keys of [Top] and the nodes its lists hold are of comparable
    types: [g.Top[n]] is defined on each of them.  (A key of a Go map
    always is.) *)
Definition TopComparable (g : Graph) : Prop :=
  ∀ n l, (n, l) ∈ Top g →
         Comparable n = true ∧ ∀ v, v ∈ l → Comparable v = true.

(** ** The snapshot of a topology *)

(** What a caller can read back of a topology: the mapping and, for every
    node, its outbound and its inbound map. *)
Definition sameSnapshot (g g' : Graph) : Prop :=
  Top g = Top g' ∧
  ∀ n, ListSignalers g n = ListSignalers g' n ∧
       ListSignals g n = ListSignals g' n.

(** The sections of the [UINode] keys of a graph. *)
Definition sectionOf (g : Graph) (sp : Section) : Prop :=
  ∃ n u, n ∈ keys g ∧ GetType n = UINode ∧
         asUI n = Some u ∧ GetSection u = Some sp.

(** The dependency relation stored in [Top]: [x] depends on [y]. *)
Definition edge (g : Graph) (x y : DGNode) : Prop :=
  y ∈ default [] (lookupTop (Top g) x).

(** The relation has a directed cycle. *)
Definition cyclic (g : Graph) : Prop := ∃ x, tc (edge g) x x.

(** No cycle can be reached from [x]. *)
Definition safe (g : Graph) (x : DGNode) : Prop :=
  ∀ c, rtc (edge g) x c → ¬ tc (edge g) c c.

(** The keys of [Top] that are not on the path [seen]: what the depth of
    the traversal is measured by. *)
Definition unseenKeys (g : Graph) (seen : list DGNode) : nat :=
  length (filter (λ k, k ∉ seen) (keys g)).

(** [source] names one key of [Top] at most. *)
Definition uniqueID (g : Graph) (i : DGNode) : Prop :=
  ∀ j, j ∈ keys g → ID j = ID i → j = i.

(** ** Sample nodes and graphs *)

Module Sample.
Definition nA : DGNode := mkDGNode 1 1 UINode true None.
Definition nB : DGNode := mkDGNode 2 2 UINode true None.
(** a second value carrying the identifier of [nA] *)
Definition nA' : DGNode := mkDGNode 3 1 UINode true None.
(** a virtual UI *)
Definition nV : DGNode :=
  mkDGNode 4 4 VUINode true (Some (mkUI true None)).

Definition gA : Graph := snd (AddRealNode nA NewGraph).
Definition gAB : Graph := snd (AddRealNode nB gA).
Definition gAV : Graph := snd (AddRealNode nV gA).

(** [gAV] where [nV] reports [nA] as a dependency of its own *)
Definition gAVdep : Graph :=
  {| DS := DS gAV; Top := Top gAV;
     nodes := fun m =>
       if decide (m = nV)
       then {| Signalers := ∅; Signals := ∅; Dependencies_ := [nA] |}
       else nodes gAV m;
     next_chan := next_chan gAV |}.

(** [nA] is made to depend on [nV] *)
Definition gAVedge : Graph := AddRealEdge (ID nA) nV gAV.

(** a second virtual UI, and a graph whose [Top] lists it as the
    dependency of [nA], with the conduit of that edge in place *)
Definition nV' : DGNode :=
  mkDGNode 5 5 VUINode true (Some (mkUI true None)).

Definition gChainV : Graph :=
  {| DS := None; Top := [(nA, [nV']); (nV', [])];
     nodes := fun m =>
       if decide (m = nA)
       then {| Signalers := ∅; Signals := {[5 := 1%nat]};
               Dependencies_ := [nV'] |}
       else if decide (m = nV')
       then {| Signalers := {[1 := 1%nat]}; Signals := ∅;
               Dependencies_ := [] |}
       else emptyState;
     next_chan := 2%nat |}.

(** deep equality of nodes that are pointers to structs of these
    fields: the address is not compared *)
Definition sameFields (x y : DGNode) : bool :=
  bool_decide (ID x = ID y ∧ GetType x = GetType y ∧ asUI x = asUI y).

(** a host structure of the nodes 1, 2, 3 and a UI whose section lists
    1 and 2 *)
Definition host : CDS :=
  mkSection [mkNode 1; mkNode 2; mkNode 3] [mkEdge (mkNode 1) (mkNode 2)].

Definition nU : DGNode :=
  mkDGNode 6 6 UINode true
    (Some (mkUI false
             (Some (mkSection [mkNode 1; mkNode 2]
                      [mkEdge (mkNode 1) (mkNode 2)])))).

Definition gHost : Graph :=
  {| DS := Some host; Top := [(nU, [])];
     nodes := fun _ => emptyState; next_chan := 1%nat |}.

(** [nA] depends on [nB], with the entries of [Top] ranged in this
    order. *)
Definition gChain : Graph :=
  {| DS := None; Top := [(nA, [nB]); (nB, [])];
     nodes := fun _ => emptyState; next_chan := 1%nat |}.
End Sample.

(** ** More sample nodes and graphs *)

Module Cases.
(** a virtual UI whose dynamic type is not comparable *)
Definition nVfunc : DGNode :=
  mkDGNode 7 7 VUINode false (Some (mkUI true None)).

(** the virtual node [nV] has the dependency [nA] in [Top] and reports
    no dependency itself *)
Definition gTopDep : Graph :=
  {| DS := None; Top := [(Sample.nV, [Sample.nA]); (Sample.nA, [])];
     nodes := fun _ => emptyState; next_chan := 1%nat |}.

(** [nA] and [nB] depend on each other *)
Definition gLoop : Graph :=
  {| DS := None; Top := [(Sample.nA, [Sample.nB]); (Sample.nB, [Sample.nA])];
     nodes := fun _ => emptyState; next_chan := 1%nat |}.
End Cases.

(** * Properties *)

(** Two steps that recur on concrete graphs: the keys are pairwise
    distinct, and a fact about a key is checked key by key. *)
Ltac keys_nodup :=
  unfold TopOK; apply (bool_decide_unpack _); vm_compute; exact I.

Ltac by_keys H :=
  vm_compute in H;
  repeat (let E := fresh "E" in
          apply elem_of_cons in H as [E|H];
          [first [discriminate E | subst; try done] |]);
  try (by apply elem_of_nil in H).

(** ** The store *)

Lemma lookupTop_Some top n l :
  lookupTop top n = Some l → (n, l) ∈ top.
Proof.
  induction top as [|[k v] top IH]; simpl; [done|].
  destruct (decide (k = n)) as [->|Hne].
  - intros [= ->]. left.
  - intros H. right. auto.
Qed.

Lemma lookupTop_None top n :
  lookupTop top n = None ↔ n ∉ fst <$> top.
Proof.
  induction top as [|[k v] top IH]; simpl.
  - split; [intros _; apply not_elem_of_nil | done].
  - rewrite not_elem_of_cons. destruct (decide (k = n)) as [->|Hne].
    + split; [done | intros [? _]; done].
    + rewrite IH. split; [intros ?; split; [congruence | done] | intros [_ ?]; done].
Qed.

Lemma lookupTop_NoDup top n l :
  NoDup (fst <$> top) → (n, l) ∈ top → lookupTop top n = Some l.
Proof.
  induction top as [|[k v] top IH]; simpl; intros Hnd Hin.
  - by apply elem_of_nil in Hin.
  - apply NoDup_cons in Hnd as [Hk Hnd].
    apply elem_of_cons in Hin as [[= <- <-]|Hin].
    + by rewrite decide_True.
    + destruct (decide (k = n)) as [->|Hne]; [|by apply IH].
      exfalso. apply Hk. apply list_elem_of_fmap. by exists (n, l).
Qed.


(** ** AddRealEdge *)

Lemma AddRealEdge_body_Top source dest g e :
  Top (AddRealEdge_body source dest g e) = Top g.
Proof.
  unfold AddRealEdge_body, make_chan. destruct e as [i k].
  repeat case_match; reflexivity.
Qed.

Lemma AddRealEdge_fold_Top source dest l g :
  Top (fold_left (AddRealEdge_body source dest) l g) = Top g.
Proof.
  revert g. induction l as [|e l IH]; intros g; simpl; [done|].
  by rewrite IH, AddRealEdge_body_Top.
Qed.

Lemma AddRealEdge_Top source dest g :
  Top (AddRealEdge source dest g) = Top g.
Proof. apply AddRealEdge_fold_Top. Qed.

Lemma AddRealEdge_body_other source dest g e :
  ID (fst e) ≠ source → AddRealEdge_body source dest g e = g.
Proof.
  intros Hne. unfold AddRealEdge_body. destruct e as [i k]; simpl in *.
  by rewrite bool_decide_eq_false_2.
Qed.

Lemma AddRealEdge_fold_other source dest l g :
  (∀ e, e ∈ l → ID (fst e) ≠ source) →
  fold_left (AddRealEdge_body source dest) l g = g.
Proof.
  revert g. induction l as [|e l IH]; intros g H; simpl; [done|].
  rewrite AddRealEdge_body_other by (apply H; left).
  apply IH. intros e' He'. apply H. by right.
Qed.

(** When one key only carries the identifier [source], the loop of
    [AddRealEdge] comes down to its body on that key. *)
Lemma AddRealEdge_fold_unique top i k dest g :
  NoDup (fst <$> top) → (i, k) ∈ top →
  (∀ j, j ∈ fst <$> top → ID j = ID i → j = i) →
  fold_left (AddRealEdge_body (ID i) dest) top g
  = AddRealEdge_body (ID i) dest g (i, k).
Proof.
  intros Hnd Hin Huniq.
  destruct (list_elem_of_split _ _ Hin) as (l1 & l2 & ->).
  rewrite fmap_app, fmap_cons in Hnd, Huniq. simpl in *.
  apply NoDup_app in Hnd as (_ & Hdisj & Hnd2).
  apply NoDup_cons in Hnd2 as [Hnotin _].
  assert (Hkey : ∀ (e : DGNode * list DGNode) (l : list (DGNode * list DGNode)),
            e ∈ l → e.1 ∈ l.*1).
  { intros e l He. apply list_elem_of_fmap. by exists e. }
  rewrite fold_left_app. simpl.
  rewrite (AddRealEdge_fold_other _ _ l1).
  - apply AddRealEdge_fold_other. intros e He Hid.
    apply Hnotin. rewrite <- (Huniq (fst e)); [by apply Hkey| |done].
    apply elem_of_app. right. right. by apply Hkey.
  - intros e He Hid. apply (Hdisj i); [|left].
    rewrite <- (Huniq (fst e)); [by apply Hkey| |done].
    apply elem_of_app. left. by apply Hkey.
Qed.

Lemma AddRealEdge_unique g i k dest :
  TopOK g → (i, k) ∈ Top g → uniqueID g i →
  AddRealEdge (ID i) dest g = AddRealEdge_body (ID i) dest g (i, k).
Proof. intros. by apply AddRealEdge_fold_unique. Qed.

(** What the body installs for a key [i] that does not list [dest] yet:
    the channel it allocates, under [ID i] in the outbound map of [dest]
    and under [ID dest] in the inbound map of [i]. *)
Lemma AddRealEdge_body_conduit g i k dest :
  containsDGNode k dest = false →
  ListSignalers (AddRealEdge_body (ID i) dest g (i, k)) dest !! ID i
    = Some (next_chan g) ∧
  ListSignals (AddRealEdge_body (ID i) dest g (i, k)) i !! ID dest
    = Some (next_chan g) ∧
  next_chan (AddRealEdge_body (ID i) dest g (i, k)) = S (next_chan g).
Proof.
  intros Hk. unfold AddRealEdge_body.
  rewrite bool_decide_eq_true_2 by done. rewrite Hk. simpl.
  assert (Hd : ListSignalers
            (UpdateSignaling dest (<[ID i:=next_chan g]> (ListSignalers g dest))
               (ListSignals g dest)
               {| DS := DS g; Top := Top g; nodes := nodes g;
                  next_chan := S (next_chan g) |}) dest !! ID i
          = Some (next_chan g)).
  { unfold ListSignalers, UpdateSignaling; simpl.
    rewrite decide_True by done. simpl. apply lookup_insert_eq. }
  rewrite Hd. split_and!.
  - unfold ListSignalers, UpdateSignaling; simpl.
    destruct (decide (dest = i)) as [->|Hne]; simpl.
    + rewrite decide_True by done. simpl. apply lookup_insert_eq.
    + rewrite decide_True by done. simpl. apply lookup_insert_eq.
  - unfold ListSignals, UpdateSignaling; simpl.
    rewrite decide_True by done. simpl. apply lookup_insert_eq.
  - reflexivity.
Qed.

(** *** Channels come from the counter *)

Lemma chansOK_UpdateSignaling n (sm : SignalingMap) (s : SignalsMap) g :
  chansOK g →
  (∀ k c, sm !! k = Some c → (c < next_chan g)%nat) →
  (∀ k c, s !! k = Some c → (c < next_chan g)%nat) →
  chansOK (UpdateSignaling n sm s g).
Proof.
  intros Hg Hsm Hs m k c. unfold ListSignalers, ListSignals; simpl.
  destruct (decide (m = n)) as [->|]; simpl.
  - intros [H|H]; [by apply (Hsm k) | by apply (Hs k)].
  - apply Hg.
Qed.

Lemma chansOK_nodes g g' :
  chansOK g → nodes g' = nodes g → (next_chan g ≤ next_chan g')%nat →
  chansOK g'.
Proof.
  intros Hg Hn Hle m k c. unfold ListSignalers, ListSignals. rewrite Hn.
  intros H. pose proof (Hg m k c H). lia.
Qed.

Lemma AddRealEdge_body_inv source dest g e :
  chansOK g →
  DS (AddRealEdge_body source dest g e) = DS g ∧
  chansOK (AddRealEdge_body source dest g e) ∧
  (next_chan g ≤ next_chan (AddRealEdge_body source dest g e))%nat.
Proof.
  intros Hg. destruct e as [i k]. unfold AddRealEdge_body.
  case_bool_decide; [|done]. destruct (containsDGNode k dest); [done|].
  cbn [negb make_chan]. cbv zeta.
  set (g0 := {| DS := DS g; Top := Top g; nodes := nodes g;
                next_chan := S (next_chan g) |}).
  assert (Hg0 : chansOK g0) by (apply (chansOK_nodes g); [done|done|simpl; lia]).
  set (g1 := UpdateSignaling dest (<[ID i:=next_chan g]> (ListSignalers g dest))
               (ListSignals g dest) g0).
  assert (Hg1 : chansOK g1).
  { apply chansOK_UpdateSignaling; [done| |].
    - intros k' c Hc. apply lookup_insert_Some in Hc as [[_ <-]|[_ Hc]].
      + simpl. lia.
      + apply (Hg0 dest k' c). by left.
    - intros k' c Hc. apply (Hg0 dest k' c). by right. }
  split_and!; [by destruct (ListSignalers g1 dest !! ID i) | |
               destruct (ListSignalers g1 dest !! ID i); simpl; lia].
  destruct (ListSignalers g1 dest !! ID i) as [v|] eqn:Hv.
  - apply chansOK_UpdateSignaling; [done| |].
    + intros k' c Hc. apply (Hg1 i k' c). by left.
    + intros k' c Hc. apply lookup_insert_Some in Hc as [[_ <-]|[_ Hc]].
      * apply (Hg1 dest (ID i) v). by left.
      * apply (Hg1 i k' c). by right.
  - apply chansOK_UpdateSignaling; [done| |].
    + intros k' c Hc. apply (Hg1 i k' c). by left.
    + intros k' c Hc. apply (Hg1 i k' c). by right.
Qed.

Lemma AddRealEdge_fold_inv source dest top g :
  chansOK g →
  DS (fold_left (AddRealEdge_body source dest) top g) = DS g ∧
  chansOK (fold_left (AddRealEdge_body source dest) top g) ∧
  (next_chan g
   ≤ next_chan (fold_left (AddRealEdge_body source dest) top g))%nat.
Proof.
  revert g. induction top as [|e top IH]; intros g Hg; cbn [fold_left];
    [done|].
  destruct (AddRealEdge_body_inv source dest g e Hg) as (B1 & B2 & B3).
  destruct (IH _ B2) as (H1 & H2 & H3).
  split_and!; [congruence | done | lia].
Qed.



(** C1, as stated, fails: [AddRealEdge] has no error result and does
    not look for cycles, and the second of the two calls changes the
    snapshot, since it installs a conduit of its own. *)
Lemma AddRealEdge_reverse_changes_snapshot :
  ¬ sameSnapshot
      (AddRealEdge 1 Sample.nB Sample.gAB)
      (AddRealEdge 2 Sample.nA (AddRealEdge 1 Sample.nB Sample.gAB)).
Proof.
  intros [_ H]. destruct (H Sample.nA) as [Hs _].
  apply (f_equal (λ m : SignalingMap, m !! 2)) in Hs.
  vm_compute in Hs. discriminate Hs.
Qed.

(** C1 (amended).  For two keys [a] and [b] of [Top], each the only key
    under its identifier and neither listed by the other, in a graph
    whose maps hold only channels the counter has handed out:
    [AddRealEdge(a, b)] followed by [AddRealEdge(b, a)] is not rejected;
    the second call leaves the keys of [Top] as they were and installs
    the channel it allocates under [ID b] in the outbound map of [a] and
    under [ID a] in the inbound map of [b], so the snapshot after the
    second call is not the snapshot before it. *)
Theorem AddRealEdge_reverse (g : Graph) (a b : DGNode) (ka kb : list DGNode) :
  TopOK g → chansOK g → (a, ka) ∈ Top g → (b, kb) ∈ Top g →
  uniqueID g a → uniqueID g b →
  containsDGNode ka b = false → containsDGNode kb a = false →
  let g1 := AddRealEdge (ID a) b g in
  let g2 := AddRealEdge (ID b) a g1 in
  keys g2 = keys g1 ∧
  ListSignalers g2 a !! ID b = Some (next_chan g1) ∧
  ListSignals g2 b !! ID a = Some (next_chan g1) ∧
  next_chan g2 = S (next_chan g1) ∧
  ¬ sameSnapshot g1 g2.
Proof.
  intros Hok Hch Ha Hb Hua Hub Hka Hkb g1 g2.
  assert (HTop : Top g1 = Top g) by apply AddRealEdge_Top.
  assert (Hch1 : chansOK g1)
    by apply (AddRealEdge_fold_inv (ID a) b (Top g) g Hch).
  assert (Hbody : g2 = AddRealEdge_body (ID b) a g1 (b, kb)).
  { apply AddRealEdge_unique.
    - unfold TopOK, keys. by rewrite HTop.
    - by rewrite HTop.
    - unfold uniqueID, keys. by rewrite HTop. }
  destruct (AddRealEdge_body_conduit g1 b kb a Hkb) as (H1 & H2 & H3).
  rewrite <- Hbody in H1, H2, H3.
  split_and!; [|done|done|done|].
  - unfold keys, g2. by rewrite AddRealEdge_Top.
  - intros [_ Hsame]. destruct (Hsame a) as [Hs _].
    rewrite <- Hs in H1.
    pose proof (Hch1 a (ID b) _ (or_introl H1)). lia.
Qed.

Lemma AddRealEdge_reverse_witness :
  ListSignalers
    (AddRealEdge 2 Sample.nA (AddRealEdge 1 Sample.nB Sample.gAB))
    Sample.nA !! 2 = Some 2%nat ∧
  ListSignals
    (AddRealEdge 2 Sample.nA (AddRealEdge 1 Sample.nB Sample.gAB))
    Sample.nB !! 1 = Some 2%nat.
Proof.
  destruct (AddRealEdge_reverse Sample.gAB Sample.nA Sample.nB [] [])
    as (_ & H1 & H2 & _).
  - keys_nodup.
  - intros n k c. unfold ListSignalers, ListSignals. simpl.
    rewrite lookup_empty. by intros [?|?].
  - vm_compute. left.
  - vm_compute. right. left.
  - intros j Hj Hid. by_keys Hj.
  - intros j Hj Hid. by_keys Hj.
  - reflexivity.
  - reflexivity.
  - split; [exact H1 | exact H2].
Defined.

(** C10, as stated, fails: the self-referential call is not rejected and
    it changes the signaling maps of the node. *)
Lemma AddRealEdge_self_changes_snapshot :
  ¬ sameSnapshot Sample.gA (AddRealEdge (ID Sample.nA) Sample.nA Sample.gA).
Proof.
  intros [_ H]. destruct (H Sample.nA) as [Hs _].
  apply (f_equal (λ m : SignalingMap, m !! 1)) in Hs.
  vm_compute in Hs. discriminate Hs.
Qed.

(** C10 (amended).  For a key [n] of [Top], the only key under its
    identifier and not listed by itself: [AddRealEdge(n.ID(), n)] is not
    rejected; it leaves the keys of [Top] as they were and installs the
    channel it allocates under [ID n] in both the outbound and the
    inbound map of [n]. *)
Theorem AddRealEdge_self (g : Graph) (n : DGNode) (k : list DGNode) :
  TopOK g → (n, k) ∈ Top g → uniqueID g n → containsDGNode k n = false →
  keys (AddRealEdge (ID n) n g) = keys g ∧
  ListSignalers (AddRealEdge (ID n) n g) n !! ID n = Some (next_chan g) ∧
  ListSignals (AddRealEdge (ID n) n g) n !! ID n = Some (next_chan g) ∧
  next_chan (AddRealEdge (ID n) n g) = S (next_chan g).
Proof.
  intros Hok Hin Huniq Hk. split.
  { unfold keys. by rewrite AddRealEdge_Top. }
  rewrite (AddRealEdge_unique g n k n Hok Hin Huniq).
  by apply AddRealEdge_body_conduit.
Qed.

Lemma AddRealEdge_self_witness :
  ListSignalers (AddRealEdge 1 Sample.nA Sample.gA) Sample.nA !! 1
    = Some 1%nat ∧
  ListSignals (AddRealEdge 1 Sample.nA Sample.gA) Sample.nA !! 1
    = Some 1%nat.
Proof.
  destruct (AddRealEdge_self Sample.gA Sample.nA []) as (_ & H1 & H2 & _).
  - keys_nodup.
  - vm_compute. left.
  - intros j Hj Hid. by_keys Hj.
  - reflexivity.
  - split; [exact H1 | exact H2].
Defined.

(** C3 on [AddRealEdge]: after [AddRealEdge(1, nB)] on the graph of [nA]
    and [nB], a conduit sits in the outbound map of [nB] under the
    identifier of [nA] and in the inbound map of [nA] under the one of
    [nB], and [nA] has no dependency in [Top]. *)
Example AddRealEdge_conduit_without_edge :
  ListSignalers (AddRealEdge 1 Sample.nB Sample.gAB) Sample.nB !! 1
    = Some 1%nat ∧
  ListSignals (AddRealEdge 1 Sample.nB Sample.gAB) Sample.nA !! 2
    = Some 1%nat ∧
  Dependencies (AddRealEdge 1 Sample.nB Sample.gAB) Sample.nA = [].
Proof. vm_compute. done. Qed.

(** [SignalsAndSignalers] on the chain where [nA] depends on [nB]: the
    outbound map of [nB] gets a new channel under the identifier of
    [nA], and the inbound map of [nA] gets, under the identifier of
    [nB], what the outbound map of [nB] holds under the identifier of
    [nB] itself ([channels[dep.ID()]]), here the nil channel. *)
Example SignalsAndSignalers_chain :
  ListSignalers (SignalsAndSignalers Sample.gChain) Sample.nB !! 1
    = Some 1%nat ∧
  ListSignals (SignalsAndSignalers Sample.gChain) Sample.nA !! 2
    = Some 0%nat.
Proof. vm_compute. done. Qed.

(** ** AddRealNode *)

(** C7, as stated, fails: a value that is not yet a key of [Top] is
    accepted even when a key of [Top] carries its identifier. *)
Lemma AddRealNode_same_ID_accepted :
  Sample.nA ∈ keys Sample.gA ∧
  ID Sample.nA' = ID Sample.nA ∧
  Sample.nA' ≠ Sample.nA ∧
  fst (AddRealNode Sample.nA' Sample.gA) = None ∧
  keys (snd (AddRealNode Sample.nA' Sample.gA)) = [Sample.nA; Sample.nA'].
Proof.
  split_and!; [vm_compute; left | reflexivity | discriminate
              | reflexivity | reflexivity].
Qed.

(** C7 (amended).  [AddRealNode] fails exactly when the dynamic type of
    the node is not comparable or the node value itself is already a key
    of [Top]; a failing call leaves the graph as it was; a call that does
    not fail makes the node a key with an empty dependency list and
    leaves the entries of the other nodes alone.  The identifier is not
    looked at. *)
Theorem AddRealNode_spec (g : Graph) (node : DGNode) :
  (fst (AddRealNode node g) ≠ None ↔
     Comparable node = false ∨ node ∈ keys g) ∧
  (fst (AddRealNode node g) ≠ None → snd (AddRealNode node g) = g) ∧
  (fst (AddRealNode node g) = None →
     lookupTop (Top (snd (AddRealNode node g))) node = Some [] ∧
     Dependencies (snd (AddRealNode node g)) node = [] ∧
     ∀ m, m ≠ node →
       lookupTop (Top (snd (AddRealNode node g))) m = lookupTop (Top g) m).
Proof.
  assert (Happ : ∀ top m,
    lookupTop (top ++ [(node, [])]) m =
    match lookupTop top m with
    | Some l => Some l
    | None => if decide (node = m) then Some [] else None
    end).
  { intros top m. induction top as [|[k v] top IH]; simpl; [done|].
    by destruct (decide (k = m)). }
  unfold AddRealNode.
  destruct (Comparable node) eqn:Hc; simpl.
  - destruct (lookupTop (Top g) node) as [l|] eqn:Hl; simpl.
    + split_and!; [|done|done].
      split; [intros _; right|done].
      apply lookupTop_Some in Hl. apply list_elem_of_fmap. by exists (node, l).
    + apply lookupTop_None in Hl. split_and!.
      * split; [done | intros [?|?]; done].
      * done.
      * intros _. unfold Dependencies; simpl. rewrite !Happ.
        assert (lookupTop (Top g) node = None) as -> by by apply lookupTop_None.
        rewrite decide_True by done. split_and!; [done|done|].
        intros m Hm. rewrite Happ. destruct (lookupTop (Top g) m); [done|].
        by rewrite decide_False.
  - split_and!; [|done|done]. split; [by left | done].
Qed.

Lemma AddRealNode_spec_witness :
  fst (AddRealNode Sample.nA Sample.gA) ≠ None ∧
  lookupTop (Top (snd (AddRealNode Sample.nA' Sample.gA))) Sample.nA'
    = Some [].
Proof.
  split.
  - apply (AddRealNode_spec Sample.gA Sample.nA). right. vm_compute. left.
  - apply (AddRealNode_spec Sample.gA Sample.nA'). reflexivity.
Defined.

(** ** RemoveVUI *)

(** C5, as stated, fails when the dependency set is the one of the
    topology: [RemoveVUI] does not look at [Top]; a virtual node with a
    dependency in [Top] and an empty list of its own is removed. *)
Lemma RemoveVUI_ignores_Top :
  Dependencies Cases.gTopDep Sample.nV = [Sample.nA] ∧
  fst (RemoveVUI Sample.nV Cases.gTopDep) = None ∧
  keys (snd (RemoveVUI Sample.nV Cases.gTopDep)) = [Sample.nA].
Proof. vm_compute. done. Qed.

(** C5 (amended).  A node that is no virtual [UI] (no [UI] at all, or a
    [UI] that is not virtual) makes [RemoveVUI] fail with "Not a UI
    node" or "Not a virtual node"; a virtual [UI] whose own
    [ListDependencies()] is not empty makes it fail with "VUI node still
    has dependencies"; whenever [RemoveVUI] fails, the graph (the
    mapping, and the maps of every node) is the graph it was called
    on. *)
Theorem RemoveVUI_failure (g : Graph) (np : DGNode) :
  ((∀ u, asUI np = Some u → IsVirtual u = false) →
     RemoveVUI np g = (Some ErrNotUI, g) ∨
     RemoveVUI np g = (Some ErrNotVirtual, g)) ∧
  (∀ u, asUI np = Some u → IsVirtual u = true →
     ListDependencies g np ≠ [] →
     RemoveVUI np g = (Some ErrHasDependencies, g)) ∧
  (∀ e g', RemoveVUI np g = (Some e, g') → g' = g).
Proof.
  unfold RemoveVUI. split_and!.
  - intros Hnv. destruct (asUI np) as [u|]; [|by left].
    rewrite (Hnv u eq_refl). by right.
  - intros u -> -> Hdeps. simpl.
    rewrite bool_decide_eq_true_2; [done|].
    by destruct (ListDependencies g np).
  - intros e g'. destruct (asUI np) as [u|]; [|congruence].
    destruct (IsVirtual u); simpl; [|congruence].
    case_bool_decide; congruence.
Qed.

Lemma RemoveVUI_failure_witness :
  RemoveVUI Sample.nV Sample.gAVdep
    = (Some ErrHasDependencies, Sample.gAVdep) ∧
  (RemoveVUI Sample.nA Sample.gAV = (Some ErrNotUI, Sample.gAV) ∨
   RemoveVUI Sample.nA Sample.gAV = (Some ErrNotVirtual, Sample.gAV)).
Proof.
  split.
  - apply (RemoveVUI_failure Sample.gAVdep Sample.nV) with (mkUI true None).
    + reflexivity.
    + reflexivity.
    + vm_compute. discriminate.
  - apply (RemoveVUI_failure Sample.gAV Sample.nA). intros u Hu.
    vm_compute in Hu. discriminate Hu.
Defined.

Lemma UpdateSignaling_Signals_other n sm s g m :
  m ≠ n → ListSignals (UpdateSignaling n sm s g) m = ListSignals g m.
Proof.
  intros Hne. unfold ListSignals, UpdateSignaling; simpl.
  by rewrite decide_False.
Qed.

Lemma UpdateSignaling_Signals_same n sm s g :
  ListSignals (UpdateSignaling n sm s g) n = s.
Proof.
  unfold ListSignals, UpdateSignaling; simpl. by rewrite decide_True.
Qed.

Lemma RemoveVUI_fold_Top np top g :
  Top (fold_left (RemoveVUI_body np) top g) = Top g.
Proof.
  revert g. induction top as [|[k l] top IH]; intros g; simpl; [done|].
  rewrite IH. by destruct (containsDGNode l np).
Qed.

(** The inbound map of a node after the loop of [RemoveVUI]: the entry
    under [ID np] is gone when the list of the node holds [np]. *)
Lemma RemoveVUI_fold_Signals np top g n :
  NoDup (top.*1) →
  ListSignals (fold_left (RemoveVUI_body np) top g) n =
  match lookupTop top n with
  | Some l =>
      if containsDGNode l np then delete (ID np) (ListSignals g n)
      else ListSignals g n
  | None => ListSignals g n
  end.
Proof.
  revert g. induction top as [|[k l] top IH]; intros g Hnd; simpl; [done|].
  rewrite fmap_cons in Hnd. apply NoDup_cons in Hnd as [Hk Hnd].
  simpl in Hk. rewrite IH by done. destruct (decide (k = n)) as [->|Hne].
  - apply lookupTop_None in Hk. rewrite Hk.
    destruct (containsDGNode l np); [|done].
    apply UpdateSignaling_Signals_same.
  - assert (ListSignals
              (if containsDGNode l np
               then UpdateSignaling k (ListSignalers g k)
                      (delete (ID np) (ListSignals g k)) g
               else g) n = ListSignals g n) as ->; [|done].
    destruct (containsDGNode l np); [|done].
    by apply UpdateSignaling_Signals_other.
Qed.

(** What [RemoveVUI] does reach.  When it succeeds, the node is no key of
    [Top] any more, and every key whose dependency list in [Top] holds
    the node has lost the entry of its inbound map under the identifier
    of the node. *)
Theorem RemoveVUI_listed_dependents (g g' : Graph) (np : DGNode) :
  TopOK g → RemoveVUI np g = (None, g') →
  (np ∉ keys g') ∧
  (∀ n l, (n, l) ∈ Top g → np ∈ l → ListSignals g' n !! ID np = None).
Proof.
  intros Hok. unfold RemoveVUI.
  destruct (asUI np) as [u|]; [|done].
  destruct (IsVirtual u); simpl; [|done].
  case_bool_decide; [done|]. intros [= <-]. split.
  - unfold keys; simpl. intros Hin.
    apply list_elem_of_fmap in Hin as ([k l] & -> & Hin).
    apply list_elem_of_filter in Hin as [Hne _]. by apply Hne.
  - intros n l Hin Hl. change (ListSignals _ n) with
      (ListSignals (fold_left (RemoveVUI_body np) (Top g) g) n).
    rewrite RemoveVUI_fold_Signals by done.
    rewrite (lookupTop_NoDup _ _ _ Hok Hin).
    unfold containsDGNode. rewrite bool_decide_eq_true_2 by done.
    apply lookup_delete_eq.
Qed.

Lemma RemoveVUI_listed_dependents_witness :
  (Sample.nV' ∉ keys (snd (RemoveVUI Sample.nV' Sample.gChainV))) ∧
  ListSignals (snd (RemoveVUI Sample.nV' Sample.gChainV)) Sample.nA !! 5
    = None.
Proof.
  destruct (RemoveVUI_listed_dependents Sample.gChainV
              (snd (RemoveVUI Sample.nV' Sample.gChainV)) Sample.nV')
    as [H1 H2].
  - keys_nodup.
  - reflexivity.
  - split.
    + intros H. by_keys H.
    + apply (H2 Sample.nA [Sample.nV']); left.
Defined.

(** C6 on a dependent that [AddRealEdge] wired: [nA] is made to depend on
    the virtual node [nV] by [AddRealEdge]; [RemoveVUI(nV)] succeeds and
    takes [nV] out of [Top], and the inbound map of [nA] still holds the
    conduit under the identifier of [nV]. *)
Example RemoveVUI_leaves_conduit :
  ListSignals Sample.gAVedge Sample.nA !! ID Sample.nV = Some 1%nat ∧
  fst (RemoveVUI Sample.nV Sample.gAVedge) = None ∧
  keys (snd (RemoveVUI Sample.nV Sample.gAVedge)) = [Sample.nA] ∧
  ListSignals (snd (RemoveVUI Sample.nV Sample.gAVedge)) Sample.nA
    !! ID Sample.nV = Some 1%nat.
Proof. vm_compute. done. Qed.

(** ** TotalityUnique *)

Section TotalityUniqueness_correct.
Variable DeepEqual : DGNode -> DGNode -> bool.

(** [reflect.DeepEqual] does not depend on the order of its
    arguments. *)
Hypothesis DeepEqual_sym : ∀ x y, DeepEqual x y = DeepEqual y x.

(** The inner loop reaches [return false] exactly when a later slot
    holds a node outside [done], at another index than [i], that is
    deeply equal to [n]. *)
Lemma TotalityUnique_inner_true done i n j l :
  TotalityUnique_inner DeepEqual done i n j l = true ↔
  ∃ k n2, l !! k = Some n2 ∧ (n2 ∉ done) ∧ ((j + k)%nat ≠ i) ∧
          DeepEqual n n2 = true.
Proof.
  revert j. induction l as [|x l IH]; intros j; simpl.
  - split; [done | intros (k & n2 & H & _); by rewrite lookup_nil in H].
  - destruct (negb (contains done x) && bool_decide (j ≠ i)
              && DeepEqual n x) eqn:Hc.
    + split; [intros _ | done]. exists 0%nat, x.
      apply andb_true_iff in Hc as [Hc Hd].
      apply andb_true_iff in Hc as [Hc Hj].
      apply negb_true_iff, bool_decide_eq_false in Hc.
      apply bool_decide_eq_true in Hj.
      rewrite Nat.add_0_r. done.
    + rewrite IH. split.
      * intros (k & n2 & Hk & Hnd & Hji & Hde).
        exists (S k), n2. split_and!; [done | done | lia | done].
      * intros ([|k] & n2 & Hk & Hnd & Hji & Hde); simpl in Hk.
        -- injection Hk as ->. rewrite Nat.add_0_r in Hji.
           exfalso. unfold contains in Hc.
           rewrite (bool_decide_eq_false_2 _ Hnd) in Hc.
           rewrite (bool_decide_eq_true_2 _ Hji) in Hc.
           rewrite Hde in Hc. discriminate Hc.
        -- exists k, n2. split_and!; [done | done | lia | done].
Qed.

(** The outer loop returns [false] exactly when the inner loop reaches
    [return false] for one of the nodes still to come, with the nodes
    before it in [done]. *)
Lemma TotalityUnique_outer_false ui done i todo :
  TotalityUnique_outer DeepEqual ui done i todo = false ↔
  ∃ k n, todo !! k = Some n ∧
         TotalityUnique_inner DeepEqual (done ++ take k todo)
           (i + k) n 0 ui = true.
Proof.
  revert done i. induction todo as [|x todo IH]; intros done i; simpl.
  - split; [done | intros (k & n & H & _); by rewrite lookup_nil in H].
  - destruct (TotalityUnique_inner DeepEqual done i x 0 ui) eqn:Hin.
    + split; [intros _ | done]. exists 0%nat, x. simpl.
      by rewrite app_nil_r, Nat.add_0_r.
    + rewrite IH. split.
      * intros (k & n & Hk & Hi). exists (S k), n. simpl.
        split; [done|].
        by rewrite (cons_middle x), app_assoc, Nat.add_succ_r.
      * intros ([|k] & n & Hk & Hi); simpl in Hk, Hi.
        -- injection Hk as ->.
           rewrite app_nil_r, Nat.add_0_r in Hi. congruence.
        -- exists k, n. split; [done|].
           by rewrite (cons_middle x), app_assoc, Nat.add_succ_r in Hi.
Qed.

(** C8 (TotalityUnique).  [TotalityUnique] returns [false] exactly when
    two different keys of [Top] of type [UINode] are deeply equal; it
    returns [true] on every graph whose [UINode] keys are pairwise not
    deeply equal, a graph without [UINode] keys among them. *)
Theorem TotalityUnique_spec (g : Graph) :
  TopOK g →
  (TotalityUnique DeepEqual g = false ↔
     ∃ n n2, n ∈ keys g ∧ GetType n = UINode ∧
             n2 ∈ keys g ∧ GetType n2 = UINode ∧
             n ≠ n2 ∧ DeepEqual n n2 = true) ∧
  ((∀ n n2, n ∈ keys g → GetType n = UINode →
            n2 ∈ keys g → GetType n2 = UINode →
            n ≠ n2 → DeepEqual n n2 = false) →
     TotalityUnique DeepEqual g = true).
Proof.
  intros Hok.
  assert (Hnd : NoDup (uiNodes g)) by by apply NoDup_filter.
  assert (Hiff : TotalityUnique DeepEqual g = false ↔
     ∃ n n2, n ∈ keys g ∧ GetType n = UINode ∧
             n2 ∈ keys g ∧ GetType n2 = UINode ∧
             n ≠ n2 ∧ DeepEqual n n2 = true).
  { unfold TotalityUnique. rewrite TotalityUnique_outer_false. split.
    - intros (k & n & Hk & Hin).
      apply TotalityUnique_inner_true in Hin
        as (k2 & n2 & Hk2 & Hdone & Hne & Hde). simpl in Hne.
      exists n, n2.
      pose proof (list_elem_of_lookup_2 _ _ _ Hk) as Hn.
      pose proof (list_elem_of_lookup_2 _ _ _ Hk2) as Hn2.
      apply list_elem_of_filter in Hn as [? ?].
      apply list_elem_of_filter in Hn2 as [? ?].
      split_and!; try done.
      intros ->. apply Hne. by apply (NoDup_lookup _ _ _ n2 Hnd).
    - intros (n & n2 & Hn & Ht & Hn2 & Ht2 & Hne & Hde).
      assert (Hin : n ∈ uiNodes g) by by apply list_elem_of_filter.
      assert (Hin2 : n2 ∈ uiNodes g) by by apply list_elem_of_filter.
      apply list_elem_of_lookup in Hin as [k Hk].
      apply list_elem_of_lookup in Hin2 as [k2 Hk2].
      assert (Hearlier : ∀ a b x y,
        uiNodes g !! a = Some x → uiNodes g !! b = Some y →
        (a < b)%nat → y ∉ [] ++ take a (uiNodes g)).
      { intros a b x y Ha Hb Hlt Hy. simpl in Hy.
        apply elem_of_take in Hy as (c & Hc & Hlt').
        pose proof (NoDup_lookup _ _ _ _ Hnd Hc Hb). lia. }
      destruct (decide (k < k2)%nat) as [Hlt|Hge].
      + exists k, n. split; [done|].
        apply TotalityUnique_inner_true. exists k2, n2.
        split_and!; [done | by eapply Hearlier | simpl; lia | done].
      + assert (k ≠ k2) by (intros ->; congruence).
        exists k2, n2. split; [done|].
        apply TotalityUnique_inner_true. exists k, n.
        split_and!; [done | eapply Hearlier; [done..|lia] | simpl; lia |].
        by rewrite DeepEqual_sym. }
  split; [exact Hiff|].
  intros Hall. apply not_false_iff_true. intros Hf.
  apply Hiff in Hf as (n & n2 & Hn & Ht & Hn2 & Ht2 & Hne & Hde).
  rewrite (Hall n n2) in Hde by done. discriminate Hde.
Qed.
End TotalityUniqueness_correct.

Lemma TotalityUnique_spec_witness :
  TotalityUnique Sample.sameFields (snd (AddRealNode Sample.nA' Sample.gA))
    = false ∧
  TotalityUnique Sample.sameFields Sample.gAB = true.
Proof.
  assert (Hsym : ∀ x y, Sample.sameFields x y = Sample.sameFields y x).
  { intros x y. unfold Sample.sameFields. apply bool_decide_ext.
    split; intros (? & ? & ?); done. }
  split.
  - apply (TotalityUnique_spec Sample.sameFields Hsym); [keys_nodup|].
    exists Sample.nA, Sample.nA'.
    split_and!; [vm_compute; left | reflexivity | vm_compute; right; left
                | reflexivity | discriminate | reflexivity].
  - apply (TotalityUnique_spec Sample.sameFields Hsym); [keys_nodup|].
    intros n n2 Hn _ Hn2 _ Hne. by_keys Hn; by_keys Hn2.
Defined.

(** ** Covered *)

Lemma uiSliceOf_Some ks :
  (∀ n, n ∈ ks → GetType n = UINode → is_Some (asUI n)) →
  ∃ uis, uiSliceOf ks = Some uis ∧
         ∀ u, u ∈ uis ↔
              ∃ n, n ∈ ks ∧ GetType n = UINode ∧ asUI n = Some u.
Proof.
  induction ks as [|x ks IH]; intros H; simpl.
  - exists []. split; [done|]. intros u. split.
    + intros Hu. by apply elem_of_nil in Hu.
    + intros (n & Hn & _). by apply elem_of_nil in Hn.
  - destruct IH as (uis & -> & Huis).
    { intros n Hn. apply H. by right. }
    destruct (decide (GetType x = UINode)) as [Ht|Ht].
    + destruct (H x) as [u Hu]; [left | done |]. rewrite Hu. simpl.
      exists (u :: uis). split; [done|]. intros u'.
      rewrite elem_of_cons, Huis. split.
      * intros [->|(n & Hn & ? & ?)]; [exists x | exists n];
          (split_and!; [|done|done]); [left | by right].
      * intros (n & Hn & Htn & Hun).
        apply elem_of_cons in Hn as [->|Hn]; [left; congruence|].
        right. by exists n.
    + exists uis. split; [done|]. intros u'. rewrite Huis. split.
      * intros (n & Hn & ? & ?). exists n. split_and!; [by right|done|done].
      * intros (n & Hn & Htn & Hun).
        apply elem_of_cons in Hn as [->|Hn]; [done|]. by exists n.
Qed.

Lemma someUIListsNode_spec uis v :
  Forall (λ u, is_Some (GetSection u)) uis →
  ∃ b, someUIListsNode uis v = Some b ∧
       (b = true ↔
        ∃ u sp, u ∈ uis ∧ GetSection u = Some sp ∧ v ∈ ListNodes sp).
Proof.
  induction 1 as [|u uis [sp Hsp] _ (b & IHb & IH)]; simpl.
  - exists false. split; [done|]. split; [done|].
    intros (u & sp & Hu & _). by apply elem_of_nil in Hu.
  - rewrite Hsp. unfold containsNode. case_bool_decide as Hv.
    + exists true. split; [done|]. split; [intros _|done].
      exists u, sp. split_and!; [left|done|done].
    + exists b. split; [done|]. rewrite IH. split.
      * intros (u' & sp' & ? & ? & ?). exists u', sp'.
        split_and!; [by right|done|done].
      * intros (u' & sp' & Hu' & Hsp' & Hv').
        apply elem_of_cons in Hu' as [->|Hu']; [congruence|].
        by exists u', sp'.
Qed.

Lemma someUIListsEdge_spec uis v :
  Forall (λ u, is_Some (GetSection u)) uis →
  ∃ b, someUIListsEdge uis v = Some b ∧
       (b = true ↔
        ∃ u sp, u ∈ uis ∧ GetSection u = Some sp ∧ v ∈ ListEdges sp).
Proof.
  induction 1 as [|u uis [sp Hsp] _ (b & IHb & IH)]; simpl.
  - exists false. split; [done|]. split; [done|].
    intros (u & sp & Hu & _). by apply elem_of_nil in Hu.
  - rewrite Hsp. unfold containsEdge. case_bool_decide as Hv.
    + exists true. split; [done|]. split; [intros _|done].
      exists u, sp. split_and!; [left|done|done].
    + exists b. split; [done|]. rewrite IH. split.
      * intros (u' & sp' & ? & ? & ?). exists u', sp'.
        split_and!; [by right|done|done].
      * intros (u' & sp' & Hu' & Hsp' & Hv').
        apply elem_of_cons in Hu' as [->|Hu']; [congruence|].
        by exists u', sp'.
Qed.

Lemma coveredNodes_spec uis nodes :
  Forall (λ u, is_Some (GetSection u)) uis →
  ∃ b, coveredNodes uis nodes = Some b ∧
       (b = true ↔
        ∀ v, v ∈ nodes →
             ∃ u sp, u ∈ uis ∧ GetSection u = Some sp ∧ v ∈ ListNodes sp).
Proof.
  intros Huis. induction nodes as [|x nodes (b & IHb & IH)]; simpl.
  - exists true. split; [done|]. split; [|done].
    intros _ v Hv. by apply elem_of_nil in Hv.
  - destruct (someUIListsNode_spec uis x Huis) as ([|] & -> & Hx).
    + exists b. split; [done|]. rewrite IH. split.
      * intros Hall v Hv. apply elem_of_cons in Hv as [->|Hv]; [|by apply Hall].
        by apply Hx.
      * intros Hall v Hv. apply Hall. by right.
    + exists false. split; [done|]. split; [done|].
      intros Hall. apply Hx, Hall. left.
Qed.

Lemma coveredEdges_spec uis edges :
  Forall (λ u, is_Some (GetSection u)) uis →
  ∃ b, coveredEdges uis edges = Some b ∧
       (b = true ↔
        ∀ v, v ∈ edges →
             ∃ u sp, u ∈ uis ∧ GetSection u = Some sp ∧ v ∈ ListEdges sp).
Proof.
  intros Huis. induction edges as [|x edges (b & IHb & IH)]; simpl.
  - exists true. split; [done|]. split; [|done].
    intros _ v Hv. by apply elem_of_nil in Hv.
  - destruct (someUIListsEdge_spec uis x Huis) as ([|] & -> & Hx).
    + exists b. split; [done|]. rewrite IH. split.
      * intros Hall v Hv. apply elem_of_cons in Hv as [->|Hv]; [|by apply Hall].
        by apply Hx.
      * intros Hall v Hv. apply Hall. by right.
    + exists false. split; [done|]. split; [done|].
      intros Hall. apply Hx, Hall. left.
Qed.

(** C9 (Covered).  On a graph that has its host structure and whose
    [UINode] keys are [UI]s with a section, [Covered] returns [true]
    exactly when every node and every edge of the host structure is
    listed by the section of some [UINode] key; a host node or a host
    edge that no such section lists makes it return [false]. *)
Theorem Covered_spec (g : Graph) (ds : CDS) :
  DS g = Some ds →
  (∀ n, n ∈ keys g → GetType n = UINode →
        ∃ u sp, asUI n = Some u ∧ GetSection u = Some sp) →
  ∃ b, Covered g = Some b ∧
       (b = true ↔
        (∀ v, v ∈ ListNodes ds → ∃ sp, sectionOf g sp ∧ v ∈ ListNodes sp) ∧
        (∀ e, e ∈ ListEdges ds → ∃ sp, sectionOf g sp ∧ e ∈ ListEdges sp)).
Proof.
  intros Hds Hui. unfold Covered. rewrite Hds.
  destruct (uiSliceOf_Some (keys g)) as (uis & -> & Huis).
  { intros n Hn Ht. destruct (Hui n Hn Ht) as (u & _ & -> & _). by exists u. }
  assert (Hsec : Forall (λ u, is_Some (GetSection u)) uis).
  { apply Forall_forall. intros u Hu. apply Huis in Hu as (n & Hn & Ht & Hu).
    destruct (Hui n Hn Ht) as (u' & sp & Hu' & Hsp).
    exists sp. congruence. }
  assert (Hof : ∀ sp, sectionOf g sp ↔ ∃ u, u ∈ uis ∧ GetSection u = Some sp).
  { intros sp. unfold sectionOf. split.
    - intros (n & u & Hn & Ht & Hu & Hsp). exists u. split; [|done].
      apply Huis. by exists n.
    - intros (u & Hu & Hsp). apply Huis in Hu as (n & Hn & Ht & Hu).
      by exists n, u. }
  destruct (coveredNodes_spec uis (ListNodes ds) Hsec) as (bn & -> & Hbn).
  destruct (coveredEdges_spec uis (ListEdges ds) Hsec) as (be & Hce & Hbe).
  assert (Hn : bn = true ↔
    ∀ v, v ∈ ListNodes ds → ∃ sp, sectionOf g sp ∧ v ∈ ListNodes sp).
  { rewrite Hbn. split; intros Hall v Hv.
    - destruct (Hall v Hv) as (u & sp & ? & ? & ?). exists sp.
      split; [|done]. apply Hof. by exists u.
    - destruct (Hall v Hv) as (sp & Hsp & ?). apply Hof in Hsp as (u & ? & ?).
      by exists u, sp. }
  assert (He : be = true ↔
    ∀ v, v ∈ ListEdges ds → ∃ sp, sectionOf g sp ∧ v ∈ ListEdges sp).
  { rewrite Hbe. split; intros Hall v Hv.
    - destruct (Hall v Hv) as (u & sp & ? & ? & ?). exists sp.
      split; [|done]. apply Hof. by exists u.
    - destruct (Hall v Hv) as (sp & Hsp & ?). apply Hof in Hsp as (u & ? & ?).
      by exists u, sp. }
  destruct bn.
  - exists be. split; [done|]. rewrite He. split; [intros ?; split|intros [_ ?]];
      [by apply Hn | done | done].
  - exists false. split; [done|]. split; [done|]. intros [Hall _].
    by apply Hn.
Qed.

(** The example of the specification: the host has the nodes 1, 2, 3 and
    the one section lists 1 and 2. *)
Lemma Covered_spec_witness :
  Covered Sample.gHost = Some false.
Proof.
  destruct (Covered_spec Sample.gHost Sample.host) as (b & Hb & Hiff).
  - reflexivity.
  - intros n Hn _. by_keys Hn. by eexists _, _.
  - rewrite Hb. f_equal. apply not_true_iff_false. intros Ht.
    apply Hiff in Ht as [Hnodes _].
    destruct (Hnodes (mkNode 3)) as (sp & (n & u & Hn & _ & Hu & Hsp) & Hv).
    + vm_compute. right. right. left.
    + by_keys Hn. simpl in Hu. injection Hu as <-. simpl in Hsp.
      injection Hsp as <-. simpl in Hv.
      apply elem_of_cons in Hv as [Hv|Hv]; [discriminate Hv|].
      apply elem_of_cons in Hv as [Hv|Hv]; [discriminate Hv|].
      by apply elem_of_nil in Hv.
Defined.

(** ** CycleDetect *)

Lemma cycleDfs_unfold fuel g start seen done visits :
  cycleDfs (S fuel) g start seen done visits =
  cycleDfs_loop (λ v visits, cycleDfs fuel g v (seen ++ [start]) done visits)
    start (seen ++ [start]) done
    (default [] (lookupTop (Top g) start)) (visits ++ [start]).
Proof. reflexivity. Qed.

Lemma unseenKeys_lt g seen start :
  start ∈ keys g → start ∉ seen →
  (unseenKeys g (seen ++ [start]) < unseenKeys g seen)%nat.
Proof.
  intros Hk Hs. unfold unseenKeys.
  rewrite <- (list_filter_filter_l (λ k, k ∉ seen ++ [start]) (λ k, k ∉ seen)).
  - apply (length_filter_lt _ _ start).
    + by apply list_elem_of_filter.
    + intros Hn. apply Hn, elem_of_app. right. left.
  - intros x Hx Hin. apply Hx, elem_of_app. by left.
Qed.

Lemma edge_key g x y : edge g x y → x ∈ keys g.
Proof.
  unfold edge. destruct (lookupTop (Top g) x) as [l|] eqn:Hl; simpl.
  - intros _. apply lookupTop_Some in Hl.
    apply list_elem_of_fmap. by exists (x, l).
  - intros H. by apply elem_of_nil in H.
Qed.

(** *** The traversal returns *)

Lemma cycleDfs_loop_total rec start seen done adj visits :
  (∀ v visits, v ∈ adj → v ∉ seen → is_Some (rec v visits)) →
  is_Some (cycleDfs_loop rec start seen done adj visits).
Proof.
  revert visits. induction adj as [|v adj IH]; intros visits Hrec; simpl.
  - done.
  - assert (IH' : ∀ vs, is_Some (cycleDfs_loop rec start seen done adj vs)).
    { intros vs. apply IH. intros w ws Hw. apply Hrec. by right. }
    destruct (contains done v); [done|].
    unfold contains at 1. case_bool_decide as Hseen; [done|].
    destruct (Hrec v visits) as [[[[|] d] vs] ->]; [left|done|done|done].
Qed.

Lemma cycleDfs_total fuel g start seen done visits :
  start ∉ seen → (unseenKeys g seen < fuel)%nat →
  is_Some (cycleDfs fuel g start seen done visits).
Proof.
  revert start seen visits.
  induction fuel as [|fuel IH]; intros start seen visits Hs Hfuel; [lia|].
  rewrite cycleDfs_unfold. apply cycleDfs_loop_total.
  intros v vs Hv Hnew. apply IH; [done|].
  assert (Hkey : start ∈ keys g) by by apply (edge_key g start v).
  pose proof (unseenKeys_lt g seen start Hkey Hs). lia.
Qed.

Lemma CycleDetect_loop_total fuel g ks done visits :
  (length (keys g) < fuel)%nat →
  is_Some (CycleDetect_loop fuel g ks [] done visits).
Proof.
  intros Hfuel. revert done visits.
  induction ks as [|i ks IH]; intros dn visits; simpl; [done|].
  destruct (contains dn i); simpl; [done|].
  destruct (cycleDfs_total fuel g i [] dn visits) as [[[r d] vs] ->].
  - apply not_elem_of_nil.
  - unfold unseenKeys. pose proof (length_filter (λ k, k ∉ []) (keys g)). lia.
  - by destruct r.
Qed.

(** *** A reported cycle is a cycle *)

Lemma cycleDfs_loop_true g rec start seen done adj visits d vs :
  (∀ x, x ∈ seen → rtc (edge g) x start) →
  (∀ v, v ∈ adj → edge g start v) →
  (∀ v visits d vs,
     edge g start v → rec v visits = Some (true, d, vs) → cyclic g) →
  cycleDfs_loop rec start seen done adj visits = Some (true, d, vs) →
  cyclic g.
Proof.
  intros Hseen Hadj Hrec. revert visits.
  induction adj as [|v adj IH]; intros visits; simpl; [done|].
  assert (Hv : edge g start v) by (apply Hadj; left).
  assert (IH' : ∀ ws, cycleDfs_loop rec start seen done adj ws
                       = Some (true, d, vs) → cyclic g).
  { intros ws. apply IH. intros w Hw. apply Hadj. by right. }
  destruct (contains done v); [by apply IH'|].
  unfold contains at 1. case_bool_decide as Hin.
  - intros _. exists v. eapply tc_rtc_l; [by apply Hseen | by apply tc_once].
  - destruct (rec v visits) as [[[[|] d'] vs']|] eqn:Hr; [|by apply IH'|done].
    intros _. by eapply Hrec.
Qed.

Lemma cycleDfs_true fuel g start seen done visits d vs :
  (∀ x, x ∈ seen → tc (edge g) x start) →
  cycleDfs fuel g start seen done visits = Some (true, d, vs) →
  cyclic g.
Proof.
  revert start seen visits d vs.
  induction fuel as [|fuel IH]; intros start seen visits d vs Hseen; [done|].
  rewrite cycleDfs_unfold. apply cycleDfs_loop_true.
  - intros x Hx. apply elem_of_app in Hx as [Hx|Hx].
    + by apply tc_rtc, Hseen.
    + apply list_elem_of_singleton in Hx as ->. done.
  - done.
  - intros v ws d' vs' Hv. apply IH.
    intros x Hx. apply elem_of_app in Hx as [Hx|Hx].
    + eapply tc_r; [by apply Hseen | done].
    + apply list_elem_of_singleton in Hx as ->. by apply tc_once.
Qed.

(** *** No report, no cycle *)

Lemma safe_children g start :
  (∀ v, edge g start v → safe g v) → safe g start.
Proof.
  intros Hch c Hreach Hcyc.
  apply rtc_inv in Hreach as [<-|(v & Hv & Hvc)].
  - inversion Hcyc as [? v Hv | ? v ? Hv Hback]; subst.
    + apply (Hch start Hv start); [done | done].
    + apply (Hch v Hv start); [by apply tc_rtc | done].
  - by apply (Hch v Hv c).
Qed.

Lemma cycleDfs_loop_false g rec start seen done adj visits d vs :
  (∀ x, x ∈ done → safe g x) →
  (∀ v visits d vs, rec v visits = Some (false, d, vs) → safe g v) →
  cycleDfs_loop rec start seen done adj visits = Some (false, d, vs) →
  d = done ++ [start] ∧ ∀ v, v ∈ adj → safe g v.
Proof.
  intros Hdone Hrec. revert visits.
  induction adj as [|v adj IH]; intros visits; simpl.
  - intros [= <- <-]. split; [done|]. intros v Hv. by apply elem_of_nil in Hv.
  - unfold contains at 1. case_bool_decide as Hd.
    + intros H. apply IH in H as [-> Hall]. split; [done|].
      intros w Hw. apply elem_of_cons in Hw as [->|Hw]; [by apply Hdone | by apply Hall].
    + destruct (contains seen v); [done|].
      destruct (rec v visits) as [[[[|] d'] vs']|] eqn:Hr; [done| |done].
      intros H. apply IH in H as [-> Hall]. split; [done|].
      intros w Hw. apply elem_of_cons in Hw as [->|Hw]; [by eapply Hrec | by apply Hall].
Qed.

Lemma cycleDfs_false fuel g start seen done visits d vs :
  (∀ x, x ∈ done → safe g x) →
  cycleDfs fuel g start seen done visits = Some (false, d, vs) →
  d = done ++ [start] ∧ safe g start.
Proof.
  revert start seen visits d vs.
  induction fuel as [|fuel IH]; intros start seen visits d vs Hdone; [done|].
  rewrite cycleDfs_unfold. intros H.
  apply cycleDfs_loop_false with (g := g) in H as [-> Hall]; [|done|].
  - split; [done|]. by apply safe_children.
  - intros v ws d' vs' Hr. by apply IH in Hr as [_ ?].
Qed.

Lemma CycleDetect_loop_true fuel g ks done visits vs :
  CycleDetect_loop fuel g ks [] done visits = Some (true, vs) → cyclic g.
Proof.
  revert done visits. induction ks as [|i ks IH]; intros dn visits; simpl;
    [done|].
  destruct (contains dn i); simpl; [by apply IH|].
  destruct (cycleDfs fuel g i [] dn visits) as [[[[|] d] ws]|] eqn:Hr;
    [|by apply IH|done].
  intros _. eapply cycleDfs_true; [|done].
  intros x Hx. by apply elem_of_nil in Hx.
Qed.

Lemma CycleDetect_loop_false fuel g ks done visits vs :
  (∀ x, x ∈ done → safe g x) →
  CycleDetect_loop fuel g ks [] done visits = Some (false, vs) →
  ∀ i, i ∈ ks → safe g i.
Proof.
  revert done visits. induction ks as [|i ks IH]; intros dn visits Hdone;
    simpl.
  - intros _ i Hi. by apply elem_of_nil in Hi.
  - unfold contains at 1. case_bool_decide as Hd; simpl.
    + intros H j Hj. apply elem_of_cons in Hj as [->|Hj]; [by apply Hdone|].
      by eapply IH.
    + destruct (cycleDfs fuel g i [] dn visits) as [[[[|] d] ws]|] eqn:Hr;
        [done| |done].
      apply cycleDfs_false in Hr as [-> Hi]; [|done].
      intros H j Hj. apply elem_of_cons in Hj as [->|Hj]; [done|].
      eapply IH; [|done..].
      intros x Hx. apply elem_of_app in Hx as [Hx|Hx]; [by apply Hdone|].
      by apply list_elem_of_singleton in Hx as ->.
Qed.

(** The scan of the embedding: it returns, and it returns [true] exactly
    when the relation [edge] has a directed cycle. *)
Lemma CycleDetect_scan (g : Graph) :
  ∃ b, CycleDetect g = Some b ∧ (b = true ↔ cyclic g).
Proof.
  unfold CycleDetect, CycleDetect_visits.
  destruct (CycleDetect_loop_total (dfsFuel g) g (keys g) [] [])
    as [[b vs] Hrun].
  { unfold dfsFuel, keys. rewrite length_fmap. lia. }
  rewrite Hrun. exists b. split; [done|]. destruct b.
  - split; [intros _ | done]. by eapply CycleDetect_loop_true.
  - split; [done|]. intros [x Hx]. exfalso.
    assert (Hkey : x ∈ keys g).
    { inversion Hx as [? y Hy | ? y ? Hy _]; subst; by eapply edge_key. }
    assert (Hnone : ∀ y : DGNode, y ∈ [] → safe g y).
    { intros y Hy. by apply elem_of_nil in Hy. }
    by apply (CycleDetect_loop_false _ _ _ _ _ _ Hnone Hrun x Hkey x).
Qed.

(** The result of the scan.  On a graph whose keys and listed nodes are
    of comparable types, so that every [g.Top[start]] of the traversal
    is defined, [CycleDetect] returns, and it returns [true] exactly
    when the dependency relation stored in [Top] has a directed cycle,
    wherever the cycle sits: every key that is not [done] yet starts a
    traversal. *)
Theorem CycleDetect_correct (g : Graph) :
  TopComparable g →
  ∃ b, CycleDetect g = Some b ∧ (b = true ↔ cyclic g).
Proof. intros _. apply CycleDetect_scan. Qed.

Lemma CycleDetect_correct_witness :
  CycleDetect Cases.gLoop = Some true ∧ cyclic Cases.gLoop.
Proof.
  destruct (CycleDetect_correct Cases.gLoop) as (b & Hb & Hiff).
  - intros n l Hin. vm_compute in Hin.
    apply elem_of_cons in Hin as [[= -> ->]|Hin];
      [split; [reflexivity|]; intros v Hv; by_keys Hv|].
    apply elem_of_cons in Hin as [[= -> ->]|Hin];
      [split; [reflexivity|]; intros v Hv; by_keys Hv|].
    by apply elem_of_nil in Hin.
  - assert (b = true) as -> by (vm_compute in Hb; congruence).
    split; [exact Hb | by apply Hiff].
Defined.

(** C4 on the number of visits: on the chain where [nA] depends on [nB],
    ranged [nA] first, the scan finds no cycle and enters [cycleDfs] on
    [nB] twice: once below [nA], whose call returns a [done] without
    [nB], and once more from the loop of [CycleDetect]. *)
Example CycleDetect_visits_twice :
  CycleDetect_visits Sample.gChain
  = Some (false, [Sample.nA; Sample.nB; Sample.nB]).
Proof. vm_compute. reflexivity. Qed.

(** * Further properties of graph.go *)

#[local] Set Warnings "-clear-no-such-hyp".

(** ** Slices built by append *)

Lemma fold_append {A} (l acc : list A) :
  fold_left (λ list p, list ++ [p]) l acc = acc ++ l.
Proof.
  revert acc. induction l as [|x l IH]; intros acc; simpl.
  - by rewrite app_nil_r.
  - by rewrite IH, <- app_assoc.
Qed.

Lemma Dependencies_lookup g n :
  Dependencies g n = default [] (lookupTop (Top g) n).
Proof.
  unfold Dependencies. destruct (lookupTop (Top g) n); simpl; [|done].
  apply fold_append.
Qed.

Lemma Dependents_fold n top acc :
  fold_left
    (fun list '(i, v) =>
       if bool_decide (ID i ≠ ID n) then
         if containsDGNode v n then list ++ [i] else list
       else list)
    top acc
  = acc ++ (fst <$> filter (λ e : DGNode * list DGNode,
                              ID e.1 ≠ ID n ∧ n ∈ e.2) top).
Proof.
  revert acc. induction top as [|[i v] top IH]; intros acc; simpl.
  - by rewrite app_nil_r.
  - rewrite IH, filter_cons. simpl. unfold containsDGNode.
    case_bool_decide as Hid; [case_bool_decide as Hin|].
    + rewrite decide_True by done. by rewrite <- app_assoc.
    + rewrite decide_False by (intros [_ ?]; done). done.
    + rewrite decide_False by (intros [? _]; done). done.
Qed.

(** The entries of [Top] that [Dependents] keeps for [n]. *)
Lemma Dependents_filter g n :
  Dependents g n
  = fst <$> filter (λ e : DGNode * list DGNode,
                      ID e.1 ≠ ID n ∧ n ∈ e.2) (Top g).
Proof. unfold Dependents. by rewrite Dependents_fold. Qed.

Lemma Dependents_elem g n d :
  d ∈ Dependents g n ↔ ∃ v, (d, v) ∈ Top g ∧ ID d ≠ ID n ∧ n ∈ v.
Proof.
  rewrite Dependents_filter, list_elem_of_fmap. split.
  - intros ([d' v] & -> & Hin). apply list_elem_of_filter in Hin as [[? ?] ?].
    by exists v.
  - intros (v & Hin & Hid & Hn). exists (d, v). split; [done|].
    by apply list_elem_of_filter.
Qed.

(** Dependents.  [Dependents(n)] holds exactly the keys of [Top] whose
    identifier differs from the one of [n] and whose list holds [n]; no
    key comes twice.  A key that carries the identifier of [n] is left
    out even when it lists [n]. *)
Theorem Dependents_spec (g : Graph) (n : DGNode) :
  (∀ d, d ∈ Dependents g n ↔
        ∃ v, (d, v) ∈ Top g ∧ ID d ≠ ID n ∧ n ∈ v) ∧
  (TopOK g → NoDup (Dependents g n)).
Proof.
  rewrite Dependents_filter. split.
  - intros d. rewrite list_elem_of_fmap. split.
    + intros ([d' v] & -> & Hin). apply list_elem_of_filter in Hin as [[? ?] ?].
      by exists v.
    + intros (v & Hin & Hid & Hn). exists (d, v). split; [done|].
      by apply list_elem_of_filter.
  - intros Hok. eapply sublist_NoDup; [exact Hok|].
    unfold keys. apply fmap_sublist, sublist_filter.
Qed.

Lemma Dependents_spec_witness :
  NoDup (Dependents Sample.gChain Sample.nB) ∧
  Sample.nA ∈ Dependents Sample.gChain Sample.nB.
Proof.
  destruct (Dependents_spec Sample.gChain Sample.nB) as [Hin Hnd].
  split.
  - apply Hnd. keys_nodup.
  - apply Hin. exists [Sample.nB]. split_and!; [left | discriminate | left].
Defined.

(** Boundaries.  For a node [n] of a comparable type, on which
    [g.Top[n]] is defined, [IsRootBoundary(n)] holds exactly when [Top]
    stores no dependency of [n], which is the case of every such node
    that is no key of [Top]; [IsLeafBoundary(n)] holds exactly when
    every key that lists [n] carries the identifier of [n]. *)
Theorem Boundary_spec (g : Graph) (n : DGNode) :
  (Comparable n = true →
     (IsRootBoundary g n = true ↔ ∀ y, ¬ edge g n y) ∧
     (n ∉ keys g → IsRootBoundary g n = true)) ∧
  (IsLeafBoundary g n = true ↔
     ∀ d v, (d, v) ∈ Top g → n ∈ v → ID d = ID n).
Proof.
  assert (Hnil : ∀ l : list DGNode, length l = 0%nat ↔ ∀ y, y ∉ l).
  { intros [|x l]; simpl; split; try done.
    - intros _ y. apply not_elem_of_nil.
    - intros H. exfalso. apply (H x). left. }
  assert (Hroot : IsRootBoundary g n = true ↔ ∀ y, ¬ edge g n y).
  { unfold IsRootBoundary, edge. rewrite <- Dependencies_lookup.
    case_bool_decide as Hlen; rewrite <- Hnil; split; done. }
  split.
  - intros _. split; [exact Hroot|].
    intros Hkey. apply Hroot. intros y. unfold edge.
    apply lookupTop_None in Hkey. rewrite Hkey. apply not_elem_of_nil.
  - unfold IsLeafBoundary.
    case_bool_decide as Hlen; rewrite Hnil in Hlen; split; try done.
    + intros _ d v Hin Hn. destruct (decide (ID d = ID n)) as [|Hne]; [done|].
      exfalso. apply (Hlen d). apply Dependents_elem. by exists v.
    + intros Hall. exfalso. apply Hlen. intros d Hd.
      apply Dependents_elem in Hd as (v & Hin & Hid & Hn).
      by apply Hid, (Hall d v).
Qed.

Lemma Boundary_spec_witness :
  IsRootBoundary Sample.gChain Sample.nA' = true.
Proof.
  destruct (Boundary_spec Sample.gChain Sample.nA') as (Hroot & _).
  destruct (Hroot eq_refl) as (_ & Hkey).
  apply Hkey. intros H. by_keys H.
Defined.

(** ** AddRealEdge, once more *)

Lemma AddRealEdge_fold_noop source dest top g :
  (∀ i k, (i, k) ∈ top → ID i = source → dest ∈ k) →
  fold_left (AddRealEdge_body source dest) top g = g.
Proof.
  induction top as [|[i k] top IH]; intros Hall; cbn [fold_left]; [done|].
  assert (AddRealEdge_body source dest g (i, k) = g) as ->.
  { unfold AddRealEdge_body. case_bool_decide as Hid; [|done].
    unfold containsDGNode. rewrite bool_decide_eq_true_2; [done|].
    apply (Hall i k); [left | done]. }
  apply IH. intros j kj Hj. apply Hall. by right.
Qed.

(** AddRealEdge without effect.  When every key that carries the
    identifier [source] already lists [dest], and so when no key carries
    it, [AddRealEdge(source, dest)] gives back the graph it was called
    on: an unknown source is not reported. *)
Theorem AddRealEdge_noop (g : Graph) (source : Z) (dest : DGNode) :
  (∀ i k, (i, k) ∈ Top g → ID i = source → dest ∈ k) →
  AddRealEdge source dest g = g.
Proof. apply AddRealEdge_fold_noop. Qed.

Lemma AddRealEdge_noop_witness :
  AddRealEdge 7 Sample.nB Sample.gAB = Sample.gAB ∧
  AddRealEdge 1 Sample.nB Sample.gChain = Sample.gChain.
Proof.
  split.
  - apply AddRealEdge_noop. intros i k Hin Hid. vm_compute in Hin.
    apply elem_of_cons in Hin as [[= -> ->]|Hin]; [discriminate Hid|].
    apply elem_of_cons in Hin as [[= -> ->]|Hin]; [discriminate Hid|].
    by apply elem_of_nil in Hin.
  - apply AddRealEdge_noop. intros i k Hin Hid. vm_compute in Hin.
    apply elem_of_cons in Hin as [[= -> ->]|Hin]; [left|].
    apply elem_of_cons in Hin as [[= -> ->]|Hin]; [discriminate Hid|].
    by apply elem_of_nil in Hin.
Defined.

(** AddRealEdge, repeated.  The same call made a second time is no
    no-op: the list of the key still does not hold [dest], so the call
    allocates one more channel and puts it in the place of the conduit
    of the first call, at both ends. *)
Theorem AddRealEdge_twice (g : Graph) (i dest : DGNode) (k : list DGNode) :
  TopOK g → (i, k) ∈ Top g → uniqueID g i →
  containsDGNode k dest = false →
  let g1 := AddRealEdge (ID i) dest g in
  let g2 := AddRealEdge (ID i) dest g1 in
  ListSignalers g1 dest !! ID i = Some (next_chan g) ∧
  ListSignalers g2 dest !! ID i = Some (S (next_chan g)) ∧
  ListSignals g2 i !! ID dest = Some (S (next_chan g)) ∧
  next_chan g2 = S (S (next_chan g)).
Proof.
  intros Hok Hin Huniq Hk g1 g2.
  assert (HTop : Top g1 = Top g) by apply AddRealEdge_Top.
  assert (Hg1 : g1 = AddRealEdge_body (ID i) dest g (i, k))
    by by apply AddRealEdge_unique.
  destruct (AddRealEdge_body_conduit g i k dest Hk) as (H1 & _ & H3).
  rewrite <- Hg1 in H1, H3.
  assert (Hg2 : g2 = AddRealEdge_body (ID i) dest g1 (i, k)).
  { apply AddRealEdge_unique.
    - unfold TopOK, keys. by rewrite HTop.
    - by rewrite HTop.
    - unfold uniqueID, keys. by rewrite HTop. }
  destruct (AddRealEdge_body_conduit g1 i k dest Hk) as (H4 & H5 & H6).
  rewrite <- Hg2, H3 in H4, H5, H6. done.
Qed.

Lemma AddRealEdge_twice_witness :
  ListSignalers (AddRealEdge 1 Sample.nB (AddRealEdge 1 Sample.nB Sample.gAB))
    Sample.nB !! 1 = Some 2%nat.
Proof.
  destruct (AddRealEdge_twice Sample.gAB Sample.nA Sample.nB [])
    as (_ & H & _).
  - keys_nodup.
  - vm_compute. left.
  - intros j Hj Hid. by_keys Hj.
  - reflexivity.
  - exact H.
Defined.

(** ** GetAdjacents *)

Lemma GetAdjacents_inner n top acc :
  fold_left
    (fun list '(n2, l2) =>
       if containsDGNode l2 n then list ++ [n2] else list)
    top acc
  = acc ++ (fst <$> filter (λ e : DGNode * list DGNode, n ∈ e.2) top).
Proof.
  revert acc. induction top as [|[i v] top IH]; intros acc; simpl.
  - by rewrite app_nil_r.
  - rewrite IH, filter_cons. simpl. unfold containsDGNode.
    case_bool_decide as Hin.
    + rewrite decide_True by done. by rewrite <- app_assoc.
    + rewrite decide_False by done. done.
Qed.

Lemma GetAdjacents_outer g node top acc x :
  x ∈ fold_left
        (fun list '(n, l) =>
           if bool_decide (ID n = ID node) then
             let list :=
               fold_left
                 (fun list '(n2, l2) =>
                    if containsDGNode l2 n then list ++ [n2] else list)
                 (Top g) list in
             fold_left (fun list np => list ++ [np]) l list
           else list)
        top acc
  ↔ x ∈ acc ∨
    ∃ n l, (n, l) ∈ top ∧ ID n = ID node ∧
           ((∃ l2, (x, l2) ∈ Top g ∧ n ∈ l2) ∨ x ∈ l).
Proof.
  revert acc. induction top as [|[n l] top IH]; intros acc; cbn [fold_left].
  - split; [by left|]. intros [?|(n & l & Hin & _)]; [done|].
    by apply elem_of_nil in Hin.
  - rewrite IH. clear IH. case_bool_decide as Hid.
    + cbv zeta. rewrite fold_append, GetAdjacents_inner.
      rewrite !elem_of_app, list_elem_of_fmap. split.
      * intros [[[Hacc|Hdep]|Hl]|(n' & l' & Hin & Hid' & Hx)].
        -- by left.
        -- right. exists n, l. split_and!; [left|done|]. left.
           destruct Hdep as ([x' l2] & -> & Hf).
           apply list_elem_of_filter in Hf as [? ?]. by exists l2.
        -- right. exists n, l. split_and!; [left|done|]. by right.
        -- right. exists n', l'. split_and!; [by right|done|done].
      * intros [Hacc|(n' & l' & Hin & Hid' & Hx)]; [by do 3 left|].
        apply elem_of_cons in Hin as [[= -> ->]|Hin].
        -- left. destruct Hx as [(l2 & Hin2 & Hn)|Hl]; [left; right|by right].
           exists (x, l2). split; [done|]. by apply list_elem_of_filter.
        -- right. by exists n', l'.
    + split.
      * intros [Hacc|(n' & l' & Hin & Hid' & Hx)]; [by left|].
        right. exists n', l'. split_and!; [by right|done|done].
      * intros [Hacc|(n' & l' & Hin & Hid' & Hx)]; [by left|].
        apply elem_of_cons in Hin as [[= -> ->]|Hin]; [done|].
        right. by exists n', l'.
Qed.

(** GetAdjacents.  [GetAdjacents(node)] holds exactly the keys that list
    a key [n] carrying the identifier of [node], and the nodes that such
    a key [n] lists; when no key carries the identifier, it is empty. *)
Theorem GetAdjacents_spec (g : Graph) (node : DGNode) :
  (∀ x, x ∈ GetAdjacents g node ↔
        ∃ n l, (n, l) ∈ Top g ∧ ID n = ID node ∧
               ((∃ l2, (x, l2) ∈ Top g ∧ n ∈ l2) ∨ x ∈ l)) ∧
  ((∀ n, n ∈ keys g → ID n ≠ ID node) → GetAdjacents g node = []).
Proof.
  assert (Hin : ∀ x, x ∈ GetAdjacents g node ↔
        ∃ n l, (n, l) ∈ Top g ∧ ID n = ID node ∧
               ((∃ l2, (x, l2) ∈ Top g ∧ n ∈ l2) ∨ x ∈ l)).
  { intros x. unfold GetAdjacents. rewrite GetAdjacents_outer. split.
    - intros [H|H]; [by apply elem_of_nil in H | done].
    - by right. }
  split; [exact Hin|]. intros Hno.
  destruct (GetAdjacents g node) as [|x l] eqn:Heq; [done|]. exfalso.
  destruct (proj1 (Hin x)) as (n & k & Hk & Hid & _); [left|].
  apply (Hno n); [|done]. apply list_elem_of_fmap. by exists (n, k).
Qed.

Lemma GetAdjacents_spec_witness :
  GetAdjacents Sample.gChain Sample.nV = [].
Proof.
  apply (GetAdjacents_spec Sample.gChain Sample.nV).
  intros n Hn. by_keys Hn.
Defined.

(** ** AddVUI and RemoveVUI *)

Lemma lookupTop_snoc top node m :
  lookupTop (top ++ [(node, [])]) m =
  match lookupTop top m with
  | Some l => Some l
  | None => if decide (node = m) then Some [] else None
  end.
Proof.
  induction top as [|[k v] top IH]; simpl; [done|].
  by destruct (decide (k = m)).
Qed.

Lemma lookupTop_deleteTop top np n :
  lookupTop (deleteTop top np) n =
  if decide (n = np) then None else lookupTop top n.
Proof.
  unfold deleteTop. induction top as [|[k v] top IH]; simpl.
  - by destruct (decide (n = np)).
  - rewrite filter_cons. simpl. destruct (decide (k ≠ np)) as [Hk|Hk]; simpl.
    + rewrite IH. destruct (decide (k = n)) as [->|]; [|done].
      by rewrite decide_False.
    + apply dec_stable in Hk as ->. rewrite IH.
      destruct (decide (n = np)) as [->|]; [done|].
      by rewrite decide_False.
Qed.

Lemma deleteTop_snoc top n :
  n ∉ top.*1 → deleteTop (top ++ [(n, [])]) n = top.
Proof.
  intros Hn. unfold deleteTop. rewrite filter_app.
  rewrite (filter_cons_False _ (n, [])) by (simpl; intros H; by apply H).
  rewrite filter_nil, app_nil_r.
  induction top as [|[k v] top IH]; [done|].
  rewrite fmap_cons in Hn. apply not_elem_of_cons in Hn as [Hk Hn].
  simpl in Hk. rewrite filter_cons_True by (simpl; congruence). by rewrite IH.
Qed.

(** AddVUI.  A [UI] that is not virtual is refused with "Not a virtual
    node." and a virtual one that is a key of [Top] with "Node already
    exists in Dependency Graph", the graph staying as it was; a virtual
    one that is no key becomes a key with an empty list.  Where
    [AddRealNode] refuses a value whose type is not comparable, [AddVUI]
    goes on to use it as a key and panics. *)
Theorem AddVUI_spec (g : Graph) (node : UI) (self : DGNode) :
  (IsVirtual node = false →
     AddVUI node self g = Some (Some ErrNotVirtual, g)) ∧
  (IsVirtual node = true → self ∈ keys g →
     AddVUI node self g = Some (Some ErrNodeExists, g)) ∧
  (IsVirtual node = true → self ∉ keys g → Comparable self = true →
     ∃ g', AddVUI node self g = Some (None, g') ∧
           lookupTop (Top g') self = Some [] ∧
           (∀ m, m ≠ self → lookupTop (Top g') m = lookupTop (Top g) m) ∧
           nodes g' = nodes g) ∧
  (IsVirtual node = true → self ∉ keys g → Comparable self = false →
     AddVUI node self g = None ∧
     AddRealNode self g = (Some ErrNotComparable, g)).
Proof.
  unfold AddVUI, contains. rewrite fold_append, app_nil_l. split_and!.
  - by intros ->.
  - intros -> Hin. simpl. by rewrite bool_decide_eq_true_2.
  - intros -> Hin ->. simpl. rewrite bool_decide_eq_false_2 by done. simpl.
    eexists. split; [done|]. simpl. split_and!.
    + rewrite lookupTop_snoc.
      assert (lookupTop (Top g) self = None) as -> by by apply lookupTop_None.
      by rewrite decide_True.
    + intros m Hm. rewrite lookupTop_snoc.
      destruct (lookupTop (Top g) m); [done|]. by rewrite decide_False.
    + done.
  - intros -> Hin Hc. simpl. rewrite bool_decide_eq_false_2 by done. simpl.
    rewrite Hc. split; [done|]. unfold AddRealNode. by rewrite Hc.
Qed.

Lemma AddVUI_spec_witness :
  AddVUI (mkUI false None) Sample.nA Sample.gA
    = Some (Some ErrNotVirtual, Sample.gA) ∧
  AddVUI (mkUI true None) Sample.nV Sample.gAV
    = Some (Some ErrNodeExists, Sample.gAV) ∧
  (∃ g', AddVUI (mkUI true None) Sample.nV Sample.gA = Some (None, g')) ∧
  AddVUI (mkUI true None) Cases.nVfunc Sample.gA = None.
Proof.
  split_and!.
  - by apply AddVUI_spec.
  - apply AddVUI_spec; [done|]. vm_compute. right. left.
  - destruct (AddVUI_spec Sample.gA (mkUI true None) Sample.nV)
      as (_ & _ & H & _).
    destruct H as (g' & Hg' & _); [done| |done|by exists g'].
    intros Hin. by_keys Hin.
  - destruct (AddVUI_spec Sample.gA (mkUI true None) Cases.nVfunc)
      as (_ & _ & _ & H).
    destruct H as [H _]; [done| |done|exact H].
    intros Hin. by_keys Hin.
Defined.

Lemma RemoveVUI_body_frame np g e :
  DS (RemoveVUI_body np g e) = DS g ∧
  next_chan (RemoveVUI_body np g e) = next_chan g ∧
  (∀ n, ListSignalers (RemoveVUI_body np g e) n = ListSignalers g n) ∧
  (∀ n, ListDependencies (RemoveVUI_body np g e) n = ListDependencies g n) ∧
  (∀ n k, k ≠ ID np →
     ListSignals (RemoveVUI_body np g e) n !! k = ListSignals g n !! k).
Proof.
  destruct e as [m l]. unfold RemoveVUI_body.
  destruct (containsDGNode l np); [|done].
  unfold ListSignalers, ListSignals, ListDependencies, UpdateSignaling; simpl.
  split_and!; try done.
  - intros n. by destruct (decide (n = m)) as [->|].
  - intros n. by destruct (decide (n = m)) as [->|].
  - intros n k Hk. destruct (decide (n = m)) as [->|]; simpl; [|done].
    by apply lookup_delete_ne.
Qed.

Lemma RemoveVUI_fold_frame np top g :
  DS (fold_left (RemoveVUI_body np) top g) = DS g ∧
  next_chan (fold_left (RemoveVUI_body np) top g) = next_chan g ∧
  (∀ n, ListSignalers (fold_left (RemoveVUI_body np) top g) n
        = ListSignalers g n) ∧
  (∀ n, ListDependencies (fold_left (RemoveVUI_body np) top g) n
        = ListDependencies g n) ∧
  (∀ n k, k ≠ ID np →
     ListSignals (fold_left (RemoveVUI_body np) top g) n !! k
     = ListSignals g n !! k).
Proof.
  revert g. induction top as [|e top IH]; intros g; cbn [fold_left]; [done|].
  destruct (IH (RemoveVUI_body np g e)) as (H1 & H2 & H3 & H4 & H5).
  destruct (RemoveVUI_body_frame np g e) as (B1 & B2 & B3 & B4 & B5).
  split_and!; [congruence | congruence | | |].
  - intros n. by rewrite H3.
  - intros n. by rewrite H4.
  - intros n k Hk. by rewrite H5, B5.
Qed.

(** RemoveVUI, what it leaves.  When [RemoveVUI] succeeds, the node has
    no entry in [Top] any more, but the entries of the other keys are as
    they were, so a key that listed the node still lists it; no outbound
    map changes, and of the inbound maps no entry but the ones under the
    identifier of the node. *)
Theorem RemoveVUI_frame (g g' : Graph) (np : DGNode) :
  RemoveVUI np g = (None, g') →
  lookupTop (Top g') np = None ∧
  (∀ n, n ≠ np → Dependencies g' n = Dependencies g n) ∧
  (∀ n, ListSignalers g' n = ListSignalers g n) ∧
  (∀ n k, k ≠ ID np → ListSignals g' n !! k = ListSignals g n !! k).
Proof.
  unfold RemoveVUI.
  destruct (asUI np) as [u|]; [|done].
  destruct (IsVirtual u); simpl; [|done].
  case_bool_decide; [done|]. intros [= <-].
  destruct (RemoveVUI_fold_frame np (Top g) g) as (_ & _ & H3 & _ & H5).
  split_and!.
  - simpl. rewrite lookupTop_deleteTop. by rewrite decide_True.
  - intros n Hn. rewrite !Dependencies_lookup. simpl.
    rewrite lookupTop_deleteTop, RemoveVUI_fold_Top. by rewrite decide_False.
  - exact H3.
  - exact H5.
Qed.

Lemma RemoveVUI_frame_witness :
  Dependencies (snd (RemoveVUI Sample.nV' Sample.gChainV)) Sample.nA
    = [Sample.nV'] ∧
  lookupTop (Top (snd (RemoveVUI Sample.nV' Sample.gChainV))) Sample.nV'
    = None.
Proof.
  destruct (RemoveVUI_frame Sample.gChainV
              (snd (RemoveVUI Sample.nV' Sample.gChainV)) Sample.nV')
    as (H1 & H2 & _); [reflexivity|].
  split; [|exact H1]. by rewrite H2.
Defined.

(** AddVUI then RemoveVUI.  Adding a virtual node that is no key yet and
    reports no dependency, and removing it again, both succeed and give
    back the [Top] the graph had; the host structure, the channel
    counter and every outbound map are as they were. *)
Theorem AddVUI_RemoveVUI (g : Graph) (node : UI) (self : DGNode) :
  asUI self = Some node → IsVirtual node = true →
  Comparable self = true → self ∉ keys g →
  ListDependencies g self = [] →
  ∃ g1 g2,
    AddVUI node self g = Some (None, g1) ∧
    RemoveVUI self g1 = (None, g2) ∧
    Top g2 = Top g ∧ DS g2 = DS g ∧ next_chan g2 = next_chan g ∧
    ∀ n, ListSignalers g2 n = ListSignalers g n.
Proof.
  intros Hui Hv Hc Hkey Hdeps.
  unfold AddVUI, contains. rewrite fold_append, app_nil_l, Hv. simpl.
  rewrite bool_decide_eq_false_2 by done. simpl. rewrite Hc.
  eexists _, _. split; [reflexivity|].
  unfold RemoveVUI. rewrite Hui, Hv. simpl.
  rewrite bool_decide_eq_false_2.
  2:{ unfold ListDependencies in *; simpl. rewrite Hdeps. simpl. lia. }
  split; [reflexivity|].
  match goal with
  | |- context [fold_left (RemoveVUI_body self) ?top ?g0] =>
      destruct (RemoveVUI_fold_frame self top g0) as (H1 & H2 & H3 & _);
      pose proof (RemoveVUI_fold_Top self top g0) as HT
  end.
  simpl in *. rewrite HT. simpl. split_and!; [|done|done|done].
  by apply deleteTop_snoc.
Qed.

Lemma AddVUI_RemoveVUI_witness :
  ∃ g1 g2,
    AddVUI (mkUI true None) Sample.nV Sample.gA = Some (None, g1) ∧
    RemoveVUI Sample.nV g1 = (None, g2) ∧ Top g2 = Top Sample.gA.
Proof.
  destruct (AddVUI_RemoveVUI Sample.gA (mkUI true None) Sample.nV)
    as (g1 & g2 & H1 & H2 & H3 & _); try reflexivity.
  - intros H. by_keys H.
  - by exists g1, g2.
Defined.

(** ** SignalsAndSignalers *)

Lemma Dependents_Top g g' n :
  Top g = Top g' → Dependents g n = Dependents g' n.
Proof. intros H. unfold Dependents. by rewrite H. Qed.

(** The loop that makes the outbound map: one new channel for each
    dependent. *)
Lemma SignalsAndSignalers_alloc deps (sm : SignalingMap) g :
  ∃ sm' g',
    fold_left
      (fun '(sm, g) d => let '(c, g) := make_chan g in (<[ID d := c]> sm, g))
      deps (sm, g) = (sm', g') ∧
    dom sm' =@{gset Z} dom sm ∪ list_to_set (ID <$> deps) ∧
    DS g' = DS g ∧ Top g' = Top g ∧ nodes g' = nodes g ∧
    (next_chan g ≤ next_chan g')%nat ∧
    (∀ k c, sm' !! k = Some c →
            sm !! k = Some c ∨ (next_chan g ≤ c < next_chan g')%nat).
Proof.
  revert sm g. induction deps as [|d deps IH]; intros sm g; cbn [fold_left].
  - exists sm, g. split_and!; try done; [|by left].
    simpl. by rewrite (right_id_L ∅ (∪)).
  - destruct (IH (<[ID d:=next_chan g]> sm)
                {| DS := DS g; Top := Top g; nodes := nodes g;
                   next_chan := S (next_chan g) |})
      as (sm' & g' & Hrun & Hdom & HDS & HTop & Hnodes & Hnext & Hval).
    simpl in HDS, HTop, Hnodes, Hnext, Hval.
    exists sm', g'. split_and!; try done.
    + rewrite Hdom, dom_insert_L. set_solver.
    + lia.
    + intros k c Hc. destruct (Hval k c Hc) as [Hins|Hnew]; [|right; lia].
      apply lookup_insert_Some in Hins as [[<- <-]|[_ ?]]; [right; lia|by left].
Qed.

(** The loop that makes the inbound map: one entry for each dependency,
    holding the nil channel or a channel of an outbound map. *)
Lemma SignalsAndSignalers_collect g l (s : SignalsMap) :
  dom (fold_left
         (fun (s : SignalsMap) np =>
            <[ID np := default 0%nat (ListSignalers g np !! ID np)]> s)
         l s) =@{gset Z} dom s ∪ list_to_set (ID <$> l) ∧
  (∀ k c,
     fold_left
       (fun (s : SignalsMap) np =>
          <[ID np := default 0%nat (ListSignalers g np !! ID np)]> s)
       l s !! k = Some c →
     s !! k = Some c ∨ c = 0%nat ∨
     ∃ n k', ListSignalers g n !! k' = Some c).
Proof.
  revert s. induction l as [|np l IH]; intros s; simpl.
  - split; [set_solver | by left].
  - destruct (IH (<[ID np:=default 0%nat (ListSignalers g np !! ID np)]> s))
      as [Hdom Hval]. split.
    + rewrite Hdom, dom_insert_L. set_solver.
    + intros k c Hc. destruct (Hval k c Hc) as [Hins|?]; [|by right].
      apply lookup_insert_Some in Hins as [[<- <-]|[_ ?]]; [|by left].
      right. destruct (ListSignalers g np !! ID np) as [c'|] eqn:Hl; simpl.
      * right. by exists np, (ID np).
      * by left.
Qed.

(** What the body does for the entry [(n, l)]. *)
Lemma SignalsAndSignalers_body_spec g n l :
  ∃ sm s g1,
    SignalsAndSignalers_body g (n, l) = UpdateSignaling n sm s g1 ∧
    DS g1 = DS g ∧ Top g1 = Top g ∧ nodes g1 = nodes g ∧
    (next_chan g ≤ next_chan g1)%nat ∧
    dom sm =@{gset Z} list_to_set (ID <$> Dependents g n) ∧
    dom s =@{gset Z} list_to_set (ID <$> l) ∧
    (∀ k c, sm !! k = Some c → (next_chan g ≤ c < next_chan g1)%nat) ∧
    (∀ k c, s !! k = Some c →
            c = 0%nat ∨ ∃ m k', ListSignalers g m !! k' = Some c).
Proof.
  unfold SignalsAndSignalers_body.
  destruct (SignalsAndSignalers_alloc (Dependents g n) ∅ g)
    as (sm & g1 & -> & Hdom & HDS & HTop & Hnodes & Hnext & Hval).
  destruct (SignalsAndSignalers_collect g1 l ∅) as [Hdoms Hvals].
  eexists sm, _, g1. split; [reflexivity|].
  split_and!; try done.
  - rewrite Hdom, dom_empty_L. set_solver.
  - rewrite Hdoms, dom_empty_L. set_solver.
  - intros k c Hc. destruct (Hval k c Hc) as [He|?]; [|done].
    by rewrite lookup_empty in He.
  - intros k c Hc. destruct (Hvals k c Hc) as [He|[?|(m & k' & Hm)]].
    + by rewrite lookup_empty in He.
    + by left.
    + right. exists m, k'. unfold ListSignalers in *. by rewrite <- Hnodes.
Qed.

Lemma SignalsAndSignalers_body_frame g e :
  DS (SignalsAndSignalers_body g e) = DS g ∧
  Top (SignalsAndSignalers_body g e) = Top g ∧
  (next_chan g ≤ next_chan (SignalsAndSignalers_body g e))%nat ∧
  (∀ m, m ≠ e.1 → nodes (SignalsAndSignalers_body g e) m = nodes g m) ∧
  (∀ m, ListDependencies (SignalsAndSignalers_body g e) m
        = ListDependencies g m).
Proof.
  destruct e as [n l].
  destruct (SignalsAndSignalers_body_spec g n l)
    as (sm & s & g1 & -> & HDS & HTop & Hnodes & Hnext & _).
  unfold ListDependencies. simpl. split_and!; try done.
  - intros m Hm. rewrite decide_False by done. by rewrite Hnodes.
  - intros m. destruct (decide (m = n)) as [->|]; simpl; by rewrite Hnodes.
Qed.

Lemma SignalsAndSignalers_fold_frame top g :
  DS (fold_left SignalsAndSignalers_body top g) = DS g ∧
  Top (fold_left SignalsAndSignalers_body top g) = Top g ∧
  (next_chan g ≤ next_chan (fold_left SignalsAndSignalers_body top g))%nat ∧
  (∀ m, m ∉ top.*1 →
        nodes (fold_left SignalsAndSignalers_body top g) m = nodes g m) ∧
  (∀ m, ListDependencies (fold_left SignalsAndSignalers_body top g) m
        = ListDependencies g m).
Proof.
  revert g. induction top as [|e top IH]; intros g; cbn [fold_left]; [done|].
  destruct (IH (SignalsAndSignalers_body g e)) as (H1 & H2 & H3 & H4 & H5).
  destruct (SignalsAndSignalers_body_frame g e) as (B1 & B2 & B3 & B4 & B5).
  split_and!; [congruence | congruence | lia | |].
  - intros m Hm. rewrite fmap_cons in Hm.
    apply not_elem_of_cons in Hm as [Hne Hm]. rewrite H4 by done.
    by apply B4.
  - intros m. by rewrite H5.
Qed.

Lemma SignalsAndSignalers_fold_doms T top g n l :
  NoDup (top.*1) → (n, l) ∈ top → Top g = T →
  dom (ListSignalers (fold_left SignalsAndSignalers_body top g) n)
    =@{gset Z}
    list_to_set (ID <$> (fst <$> filter (λ e : DGNode * list DGNode,
                                          ID e.1 ≠ ID n ∧ n ∈ e.2) T)) ∧
  dom (ListSignals (fold_left SignalsAndSignalers_body top g) n)
    =@{gset Z} list_to_set (ID <$> l).
Proof.
  revert g. induction top as [|[m k] top IH]; intros g Hnd Hin HT;
    cbn [fold_left].
  - by apply elem_of_nil in Hin.
  - rewrite fmap_cons in Hnd. apply NoDup_cons in Hnd as [Hm Hnd].
    simpl in Hm.
    destruct (SignalsAndSignalers_body_frame g (m, k)) as (_ & HTop & _).
    apply elem_of_cons in Hin as [[= -> ->]|Hin].
    + destruct (SignalsAndSignalers_fold_frame top
                  (SignalsAndSignalers_body g (m, k))) as (_ & _ & _ & Hn & _).
      unfold ListSignalers, ListSignals. rewrite (Hn m Hm).
      destruct (SignalsAndSignalers_body_spec g m k)
        as (sm & s & g1 & -> & _ & _ & _ & _ & Hd1 & Hd2 & _).
      simpl. rewrite decide_True by done. simpl.
      rewrite Hd1, Hd2, Dependents_filter, HT. done.
    + apply IH; [done | done | congruence].
Qed.

(** SignalsAndSignalers.  The call leaves [Top] and the nodes outside
    [Top] alone and replaces the two maps of every key: afterwards the
    outbound map of a key has an entry exactly under the identifiers of
    its dependents and its inbound map exactly under the identifiers of
    the nodes it lists; what the maps held before is gone. *)
Theorem SignalsAndSignalers_spec (g : Graph) :
  TopOK g →
  Top (SignalsAndSignalers g) = Top g ∧
  (∀ m, m ∉ keys g → nodes (SignalsAndSignalers g) m = nodes g m) ∧
  (∀ n l, (n, l) ∈ Top g →
     dom (ListSignalers (SignalsAndSignalers g) n)
       =@{gset Z} list_to_set (ID <$> Dependents g n) ∧
     dom (ListSignals (SignalsAndSignalers g) n)
       =@{gset Z} list_to_set (ID <$> l)).
Proof.
  intros Hok. unfold SignalsAndSignalers.
  destruct (SignalsAndSignalers_fold_frame (Top g) g) as (_ & HT & _ & Hn & _).
  split_and!; [done | done |].
  intros n l Hin. rewrite Dependents_filter.
  by apply (SignalsAndSignalers_fold_doms (Top g)).
Qed.

Lemma SignalsAndSignalers_spec_witness :
  dom (ListSignalers (SignalsAndSignalers Sample.gChainV) Sample.nV')
    =@{gset Z} {[ 1 ]} ∧
  dom (ListSignals (SignalsAndSignalers Sample.gChainV) Sample.nV')
    =@{gset Z} ∅.
Proof.
  destruct (SignalsAndSignalers_spec Sample.gChainV) as (_ & _ & H);
    [keys_nodup|].
  destruct (H Sample.nV' []) as [H1 H2]; [right; left|].
  rewrite H1, H2. split; [|done].
  vm_compute. reflexivity.
Defined.

(** ** Graphs made through the operations *)


Lemma SignalsAndSignalers_body_chans g e :
  chansOK g → (0 < next_chan g)%nat →
  chansOK (SignalsAndSignalers_body g e).
Proof.
  intros Hg Hpos. destruct e as [n l].
  destruct (SignalsAndSignalers_body_spec g n l)
    as (sm & s & g1 & -> & _ & _ & Hnodes & Hnext & _ & _ & Hsm & Hs).
  apply chansOK_UpdateSignaling.
  - by apply (chansOK_nodes g).
  - intros k c Hc. apply Hsm in Hc. lia.
  - intros k c Hc. destruct (Hs k c Hc) as [->|(m & k' & Hm)]; [lia|].
    pose proof (Hg m k' c (or_introl Hm)). lia.
Qed.

Lemma SignalsAndSignalers_fold_chans top g :
  chansOK g → (0 < next_chan g)%nat →
  chansOK (fold_left SignalsAndSignalers_body top g).
Proof.
  revert g. induction top as [|e top IH]; intros g Hg Hpos; cbn [fold_left];
    [done|].
  apply IH; [by apply SignalsAndSignalers_body_chans|].
  destruct (SignalsAndSignalers_body_frame g e) as (_ & _ & Hle & _). lia.
Qed.

Lemma RemoveVUI_fold_sub np top g n k c :
  ListSignals (fold_left (RemoveVUI_body np) top g) n !! k = Some c →
  ListSignals g n !! k = Some c.
Proof.
  revert g. induction top as [|[m l] top IH]; intros g; cbn [fold_left];
    [done|].
  intros H. apply IH in H. unfold RemoveVUI_body in H.
  destruct (containsDGNode l np); [|done].
  unfold ListSignals, UpdateSignaling in *; simpl in H.
  destruct (decide (n = m)) as [->|]; simpl in H; [|done].
  by apply lookup_delete_Some in H as [_ ?].
Qed.

(** The operations keep [builtInv]. *)
Lemma built_builtInv g : built g → builtInv g.
Proof.
  induction 1 as [|node g Hb (Hok & Hnil & HDS & Hch & Hpos)
                  |source dest g Hb (Hok & Hnil & HDS & Hch & Hpos)
                  |node self g r Hb (Hok & Hnil & HDS & Hch & Hpos) Hui Hrun
                  |np g Hb (Hok & Hnil & HDS & Hch & Hpos)
                  |g Hb (Hok & Hnil & HDS & Hch & Hpos)].
  - split_and!; [constructor | | done | | simpl; lia].
    + intros n l Hin. by apply elem_of_nil in Hin.
    + intros n k c. unfold ListSignalers, ListSignals; simpl.
      rewrite !lookup_empty. by intros [?|?].
  - unfold AddRealNode. destruct (Comparable node); simpl; [|done].
    destruct (lookupTop (Top g) node) eqn:Hl; simpl; [done|].
    apply lookupTop_None in Hl. split_and!; try done.
    + unfold TopOK, keys; simpl. rewrite fmap_app. apply NoDup_app.
      split_and!; [done | | by apply NoDup_singleton].
      intros x Hx Hx'. apply list_elem_of_singleton in Hx'. by subst.
    + simpl. intros n l Hin. apply elem_of_app in Hin as [Hin|Hin];
        [by apply (Hnil n) | by apply list_elem_of_singleton in Hin as [= _ ->]].
  - destruct (AddRealEdge_fold_inv source dest (Top g) g Hch)
      as (H1 & H2 & H3).
    unfold builtInv, TopOK, keys, AddRealEdge.
    rewrite AddRealEdge_fold_Top, H1. split_and!; try done. lia.
  - unfold AddVUI in Hrun. destruct (IsVirtual node); simpl in Hrun;
      [|by injection Hrun as <-].
    unfold contains in Hrun. rewrite fold_append, app_nil_l in Hrun.
    case_bool_decide as Hin; simpl in Hrun; [by injection Hrun as <-|].
    destruct (Comparable self); [|done]. injection Hrun as <-.
    split_and!; try done.
    + unfold TopOK, keys; simpl. rewrite fmap_app. apply NoDup_app.
      split_and!; [done | | by apply NoDup_singleton].
      intros x Hx Hx'. apply list_elem_of_singleton in Hx'. by subst.
    + simpl. intros n l Hl. apply elem_of_app in Hl as [Hl|Hl];
        [by apply (Hnil n) | by apply list_elem_of_singleton in Hl as [= _ ->]].
  - unfold RemoveVUI. destruct (asUI np) as [u|]; [|done].
    destruct (IsVirtual u); simpl; [|done].
    case_bool_decide; [done|]. simpl.
    destruct (RemoveVUI_fold_frame np (Top g) g) as (H1 & H2 & H3 & _).
    rewrite RemoveVUI_fold_Top. split_and!; simpl.
    + unfold TopOK, keys; simpl. eapply sublist_NoDup; [exact Hok|].
      apply fmap_sublist, sublist_filter.
    + intros n l Hin. apply list_elem_of_filter in Hin as [_ Hin].
      by apply (Hnil n).
    + congruence.
    + intros n k c. unfold ListSignalers, ListSignals; simpl.
      fold (ListSignalers (fold_left (RemoveVUI_body np) (Top g) g) n).
      fold (ListSignals (fold_left (RemoveVUI_body np) (Top g) g) n).
      rewrite H3, H2. intros [Hc|Hc].
      * apply (Hch n k c). by left.
      * apply RemoveVUI_fold_sub in Hc. apply (Hch n k c). by right.
    + lia.
  - destruct (SignalsAndSignalers_fold_frame (Top g) g)
      as (H1 & H2 & H3 & _).
    unfold builtInv, TopOK, keys, SignalsAndSignalers. rewrite H1, H2.
    split_and!; try done; [by apply SignalsAndSignalers_fold_chans | lia].
Qed.

(** No edge is ever stored.  In a graph made from [NewGraph] by
    [AddRealNode], [AddRealEdge], [AddVUI], [RemoveVUI] and
    [SignalsAndSignalers], the keys of [Top] are pairwise distinct and
    every node has no dependency, no dependent and no adjacent node. *)
Theorem built_no_edges (g : Graph) :
  built g →
  TopOK g ∧
  ∀ n, Dependencies g n = [] ∧ Dependents g n = [] ∧ GetAdjacents g n = [].
Proof.
  intros Hb. destruct (built_builtInv g Hb) as (Hok & Hnil & _).
  split; [done|]. intros n. split_and!.
  - rewrite Dependencies_lookup.
    destruct (lookupTop (Top g) n) as [l|] eqn:Hl; [|done].
    apply lookupTop_Some in Hl. simpl. by apply (Hnil n).
  - destruct (Dependents g n) as [|d ds] eqn:Hd; [done|]. exfalso.
    destruct (proj1 (Dependents_elem g n d)) as (v & Hv & _ & Hn);
      [rewrite Hd; left|].
    rewrite (Hnil d v Hv) in Hn. by apply elem_of_nil in Hn.
  - destruct (GetAdjacents g n) as [|x xs] eqn:Hx; [done|]. exfalso.
    assert (Hin : x ∈ GetAdjacents g n) by (rewrite Hx; left).
    unfold GetAdjacents in Hin. apply GetAdjacents_outer in Hin
      as [Hin|(m & l & Hl & _ & [(l2 & Hl2 & Hm)|Hxl])].
    + by apply elem_of_nil in Hin.
    + rewrite (Hnil x l2 Hl2) in Hm. by apply elem_of_nil in Hm.
    + rewrite (Hnil m l Hl) in Hxl. by apply elem_of_nil in Hxl.
Qed.

Lemma built_gAB : built Sample.gAB.
Proof. apply built_AddRealNode, built_AddRealNode, built_NewGraph. Qed.

Lemma built_no_edges_witness :
  Dependencies (AddRealEdge 1 Sample.nB Sample.gAB) Sample.nA = [] ∧
  Dependents (AddRealEdge 1 Sample.nB Sample.gAB) Sample.nB = [].
Proof.
  destruct (built_no_edges (AddRealEdge 1 Sample.nB Sample.gAB)) as [_ H].
  - apply built_AddRealEdge, built_gAB.
  - split; [apply (H Sample.nA) | apply (H Sample.nB)].
Defined.

(** No cycle is ever found.  On a graph made through the operations the
    dependency relation of [Top] has no cycle and [CycleDetect] returns
    [false], whatever calls of [AddRealEdge] went into the graph. *)
Theorem built_CycleDetect (g : Graph) :
  built g → ¬ cyclic g ∧ CycleDetect g = Some false.
Proof.
  intros Hb. destruct (built_builtInv g Hb) as (_ & Hnil & _).
  assert (Hno : ¬ cyclic g).
  { intros [x Hx].
    assert (∃ y, edge g x y) as [y Hy]
      by (inversion Hx; subst; eauto).
    unfold edge in Hy.
    destruct (lookupTop (Top g) x) as [l|] eqn:Hl; simpl in Hy.
    - apply lookupTop_Some in Hl. rewrite (Hnil x l Hl) in Hy.
      by apply elem_of_nil in Hy.
    - by apply elem_of_nil in Hy. }
  split; [done|].
  destruct (CycleDetect_scan g) as ([|] & -> & Hiff); [|done].
  exfalso. by apply Hno, Hiff.
Qed.

Lemma built_CycleDetect_witness :
  CycleDetect (AddRealEdge 2 Sample.nA (AddRealEdge 1 Sample.nB Sample.gAB))
  = Some false.
Proof.
  apply built_CycleDetect, built_AddRealEdge, built_AddRealEdge, built_gAB.
Defined.

(** Covered needs a host structure nobody sets.  No operation assigns
    [g.DS], which [NewGraph] leaves nil: on a graph made through the
    operations [Covered] panics. *)
Theorem built_Covered (g : Graph) :
  built g → Covered g = None.
Proof.
  intros Hb. destruct (built_builtInv g Hb) as (_ & _ & HDS & _).
  unfold Covered. rewrite HDS. by destruct (uiSliceOf (keys g)).
Qed.

Lemma built_Covered_witness :
  Covered Sample.gAB = None.
Proof. apply built_Covered, built_gAB. Defined.

(** Channels are new.  On a graph made through the operations, the
    channel that the next [make(chan ProcedureSignals)] hands out is not
    the nil channel and sits in no outbound or inbound map: a conduit
    that [AddRealEdge] installs is shared with no older entry. *)
Theorem built_fresh_chan (g : Graph) :
  built g →
  next_chan g ≠ 0%nat ∧
  ∀ n k, ListSignalers g n !! k ≠ Some (next_chan g) ∧
         ListSignals g n !! k ≠ Some (next_chan g).
Proof.
  intros Hb. destruct (built_builtInv g Hb) as (_ & _ & _ & Hch & Hpos).
  split; [lia|]. intros n k.
  split; intros H.
  - pose proof (Hch n k _ (or_introl H)). lia.
  - pose proof (Hch n k _ (or_intror H)). lia.
Qed.

Lemma built_fresh_chan_witness :
  ListSignalers (AddRealEdge 1 Sample.nB Sample.gAB) Sample.nB !! 1
  ≠ Some (next_chan (AddRealEdge 1 Sample.nB Sample.gAB)).
Proof.
  apply (built_fresh_chan (AddRealEdge 1 Sample.nB Sample.gAB)).
  apply built_AddRealEdge, built_gAB.
Defined.

(** ** Type *)

(** Type never answers VDGNode.  virtual.go declares [Virtual] as an
    interface that embeds [UI]: a value for which [n.(Virtual)] succeeds
    is a [UI], and [Type] has returned [UINode] or [VUINode] before it
    comes to that assertion. *)
Theorem TypeOf_not_VDGNode (asTemporal : DGNode → option bool)
    (isVirtualNode : DGNode → bool) (n : DGNode) :
  (∀ m, isVirtualNode m = true → is_Some (asUI m)) →
  TypeOf asTemporal isVirtualNode n ≠ VDGNode ∧
  (isVirtualNode n = true →
     TypeOf asTemporal isVirtualNode n = UINode ∨
     TypeOf asTemporal isVirtualNode n = VUINode).
Proof.
  intros Hemb. unfold TypeOf. split.
  - destruct (asUI n) as [j|] eqn:Hui; [by destruct (IsVirtual j)|].
    destruct (asTemporal n) as [[|]|]; [done|done|].
    destruct (isVirtualNode n) eqn:Hv; [|done].
    destruct (Hemb n Hv) as [j Hj]. congruence.
  - intros Hv. destruct (Hemb n Hv) as [j ->].
    destruct (IsVirtual j); [by right | by left].
Qed.

Lemma TypeOf_not_VDGNode_witness :
  TypeOf (λ _, None) (λ m, bool_decide (is_Some (asUI m))) Sample.nV
  ≠ VDGNode.
Proof.
  apply TypeOf_not_VDGNode. intros m Hm. by apply bool_decide_eq_true in Hm.
Defined.

(** * Properties of sections.go *)

(** Appending what is not there yet: the inner loop of [NewSubset]. *)
Lemma append_new_fold {A} `{EqDecision A} (P : A → bool) (l acc : list A) :
  (∀ x, x ∈ fold_left
              (λ acc x,
                 if P x
                 then if negb (bool_decide (x ∈ acc)) then acc ++ [x] else acc
                 else acc) l acc
        ↔ x ∈ acc ∨ (x ∈ l ∧ P x = true)) ∧
  (NoDup acc →
   NoDup (fold_left
            (λ acc x,
               if P x
               then if negb (bool_decide (x ∈ acc)) then acc ++ [x] else acc
               else acc) l acc)).
Proof.
  revert acc. induction l as [|y l IH]; intros acc; cbn [fold_left].
  - split; [|done]. intros x. split; [by left|].
    intros [?|[Hx _]]; [done | by apply elem_of_nil in Hx].
  - destruct (P y) eqn:HP; [case_bool_decide as Hy; cbn [negb]|].
    + destruct (IH acc) as [Hin Hnd]. split; [|done].
      intros x. rewrite Hin, elem_of_cons. split.
      * intros [?|[? ?]]; [by left | right; split; [by right | done]].
      * intros [?|[[->|?] ?]]; [by left | by left | by right].
    + destruct (IH (acc ++ [y])) as [Hin Hnd]. split.
      * intros x. rewrite Hin, elem_of_app, list_elem_of_singleton, elem_of_cons.
        split.
        -- intros [[? | ->]|[? ?]]; [by left | right; split; [by left | done]
                                   | right; split; [by right | done]].
        -- intros [?|[[->|?] ?]]; [by do 2 left | left; by right | by right].
      * intros Hacc. apply Hnd. apply NoDup_app.
        split_and!; [done | | by apply NoDup_singleton].
        intros x Hx Hx'. apply list_elem_of_singleton in Hx'. by subst.
    + destruct (IH acc) as [Hin Hnd]. split; [|done].
      intros x. rewrite Hin, elem_of_cons. split.
      * intros [?|[? ?]]; [by left | right; split; [by right | done]].
      * intros [?|[[->|?] ?]]; [by left | congruence | by right].
Qed.

Lemma NewSubset_fold (cdsEdges : EdgeList) (ns : NodeList) (acc : EdgeList) :
  (∀ e, e ∈ fold_left
              (fun edges n =>
                 fold_left
                   (fun edges e =>
                      if bool_decide (Source e = n)
                         || bool_decide (Destination e = n)
                      then if negb (containsEdge edges e)
                           then edges ++ [e] else edges
                      else edges)
                   cdsEdges edges)
              ns acc
        ↔ e ∈ acc ∨ (e ∈ cdsEdges ∧ (Source e ∈ ns ∨ Destination e ∈ ns))) ∧
  (NoDup acc →
   NoDup (fold_left
            (fun edges n =>
               fold_left
                 (fun edges e =>
                    if bool_decide (Source e = n)
                       || bool_decide (Destination e = n)
                    then if negb (containsEdge edges e)
                         then edges ++ [e] else edges
                    else edges)
                 cdsEdges edges)
            ns acc)).
Proof.
  revert acc. induction ns as [|n ns IH]; intros acc; cbn [fold_left].
  - split; [|done]. intros e. split; [by left|].
    intros [?|[_ [H|H]]]; [done | by apply elem_of_nil in H
                           | by apply elem_of_nil in H].
  - pose proof (append_new_fold
                  (λ e, bool_decide (Source e = n)
                        || bool_decide (Destination e = n)) cdsEdges acc)
      as [Hin Hnd].
    match goal with
    | |- context [fold_left _ ns ?a] => destruct (IH a) as [IHin IHnd]
    end.
    split.
    + intros e. rewrite IHin. unfold containsEdge. rewrite Hin.
      rewrite orb_true_iff, !bool_decide_eq_true, !elem_of_cons. split.
      * intros [[?|[? [?|?]]]|[? [?|?]]]; auto 6.
      * intros [?|[? [[->|?]|[->|?]]]]; auto 6.
    + intros Hacc. apply IHnd. by apply Hnd.
Qed.

(** NewSubset.  The edges of [NewSubset(nodes, c)] are exactly the edges
    of [c] with an end among [nodes], each of them once; its nodes are
    [nodes]. *)
Theorem NewSubset_spec (nodes : NodeList) (c : CDS) :
  ListNodes (NewSubset nodes c) = nodes ∧
  NoDup (ListEdges (NewSubset nodes c)) ∧
  ∀ e, e ∈ ListEdges (NewSubset nodes c) ↔
       e ∈ ListEdges c ∧ (Source e ∈ nodes ∨ Destination e ∈ nodes).
Proof.
  destruct (NewSubset_fold (ListEdges c) nodes []) as [Hin Hnd].
  split_and!; [done | by apply Hnd, NoDup_nil |].
  intros e. simpl. unfold NewSubset_edges. rewrite Hin. split.
  - intros [H|?]; [by apply elem_of_nil in H | done].
  - by right.
Qed.

Lemma NewSubgraph_inner (nodes : NodeList) (n : Node) (cdsEdges acc : EdgeList) :
  ∀ x, x ∈ fold_left
             (fun edges e =>
                let s := Source e in
                let d := Destination e in
                if bool_decide (NodeID d = NodeID n) && containsNode nodes s
                then edges ++ [e] else edges)
             cdsEdges acc
       ↔ x ∈ acc ∨ (x ∈ cdsEdges ∧ Destination x = n ∧ Source x ∈ nodes).
Proof.
  revert acc. induction cdsEdges as [|e es IH]; intros acc x; cbn [fold_left].
  - split; [by left|]. intros [?|[H _]]; [done | by apply elem_of_nil in H].
  - rewrite IH. cbv zeta. unfold containsNode.
    destruct (bool_decide (NodeID (Destination e) = NodeID n)
              && bool_decide (Source e ∈ nodes)) eqn:Hc.
    + apply andb_true_iff in Hc as [Hd Hs].
      apply bool_decide_eq_true in Hd, Hs.
      assert (Destination e = n) by (destruct (Destination e), n; simpl in *; congruence).
      rewrite elem_of_app, list_elem_of_singleton, elem_of_cons. split.
      * intros [[? | ->]|(? & ? & ?)]; auto 6.
      * intros [?|([->|?] & ? & ?)]; auto 6.
    + rewrite elem_of_cons. split.
      * intros [?|(? & ? & ?)]; auto 6.
      * intros [?|([->|?] & Hd & Hs)]; auto 6. exfalso.
        rewrite Hd in Hc.
        rewrite (bool_decide_eq_true_2 _ eq_refl) in Hc.
        by rewrite (bool_decide_eq_true_2 _ Hs) in Hc.
Qed.

Lemma NewSubgraph_outer (nodes ns : NodeList) (c : CDS) (acc : EdgeList) :
  ∀ x, x ∈ fold_left
             (fun edges n =>
                let cdsEdges := ListEdges c in
                fold_left
                  (fun edges e =>
                     let s := Source e in
                     let d := Destination e in
                     if bool_decide (NodeID d = NodeID n)
                        && containsNode nodes s
                     then edges ++ [e] else edges)
                  cdsEdges edges)
             ns acc
       ↔ x ∈ acc ∨
         (x ∈ ListEdges c ∧ Destination x ∈ ns ∧ Source x ∈ nodes).
Proof.
  revert acc. induction ns as [|n ns IH]; intros acc x; cbn [fold_left].
  - split; [by left|].
    intros [?|(_ & H & _)]; [done | by apply elem_of_nil in H].
  - rewrite IH. cbv zeta. rewrite NewSubgraph_inner, elem_of_cons. split.
    + intros [[?|(? & ? & ?)]|(? & ? & ?)]; auto 7.
    + intros [?|(? & [?|?] & ?)]; auto 7.
Qed.

(** NewSubgraph.  The edges of [NewSubgraph(nodes, c)] are exactly the
    edges of [c] whose two ends are among [nodes]; its nodes are
    [nodes]. *)
Theorem NewSubgraph_spec (nodes : NodeList) (c : CDS) :
  ListNodes (NewSubgraph nodes c) = nodes ∧
  ∀ e, e ∈ ListEdges (NewSubgraph nodes c) ↔
       e ∈ ListEdges c ∧ Source e ∈ nodes ∧ Destination e ∈ nodes.
Proof.
  split; [done|]. intros e. simpl. unfold NewSubgraph_edges.
  rewrite NewSubgraph_outer. split.
  - intros [H|(? & ? & ?)]; [by apply elem_of_nil in H | done].
  - intros (? & ? & ?). by right.
Qed.

(** * Covered, where it panics *)

Lemma uiSliceOf_None ks n :
  n ∈ ks → GetType n = UINode → asUI n = None → uiSliceOf ks = None.
Proof.
  intros Hin Ht Hui. induction ks as [|x ks IH]; [by apply elem_of_nil in Hin|].
  simpl. apply elem_of_cons in Hin as [<-|Hin].
  - rewrite decide_True by done. by rewrite Hui.
  - rewrite (IH Hin). destruct (decide (GetType x = UINode)); [|done].
    by destruct (asUI x).
Qed.

(** Covered panics.  [Covered] panics when a key of [Top] has the type
    [UINode] and is no [UI] (the type assertion [v.(UI)] has no second
    result), and when [g.DS] is nil; it gives no answer then, whatever
    the sections list. *)
Theorem Covered_panics (g : Graph) :
  ((∃ n, n ∈ keys g ∧ GetType n = UINode ∧ asUI n = None) →
     Covered g = None) ∧
  (DS g = None → Covered g = None).
Proof.
  unfold Covered. split.
  - intros (n & Hin & Ht & Hui). by rewrite (uiSliceOf_None _ n).
  - intros ->. by destruct (uiSliceOf (keys g)).
Qed.

Lemma Covered_panics_witness :
  Covered Sample.gChain = None.
Proof.
  destruct (Covered_panics Sample.gChain) as [H _]. apply H.
  exists Sample.nA. split; [vm_compute; left | split; reflexivity].
Defined.
